(** * clox: the bytecode virtual machine (vm.c) and the scanner (scanner.c)

    A shallow embedding of the two C translation units, followed by the
    properties of their operations. *)

From Stdlib Require Import ZArith Ascii String List Lia.
From Stdlib.Strings Require Import Byte.
From stdpp Require Import base tactics option list strings.

Local Open Scope Z_scope.

(** ** vm.c *)

Module Vm.

(** Modelled from the spec: vm.h is missing; the outcome enumeration of
    [interpret] is the one of the spec's "VM outcome values": success,
    compile-error and runtime-error. *)
Inductive InterpretResult : Type :=
  | INTERPRET_OK
  | INTERPRET_COMPILE_ERROR
  | INTERPRET_RUNTIME_ERROR.

Section Machine.

(** value.h is missing: a runtime value is any type. *)
Context {Value : Type}.

(** chunk.h is missing: the two opcode bytes of the enumeration are
    parameters; [common.h] is missing too, so whether
    [DEBUG_TRACE_EXECUTION] is defined is a parameter as well. *)
Variables OP_CONSTANT OP_RETURN : byte.
Variable DEBUG_TRACE_EXECUTION : bool.

(** The bytecode container: [chunk->code] and
    [chunk->constants.values]. *)
Record Chunk : Type := mkChunk {
  code : list byte;
  constants : list Value
}.

(** The global [VM vm].  [ip] is the offset of [vm.ip] from
    [vm.chunk->code]; [stack] is the array [vm.stack], its length the
    fixed capacity; [stackTop] is the offset of the pointer
    [vm.stackTop] from [vm.stack] (pointer arithmetic is not checked in
    C, so the offset is an integer that can leave the array). *)
Record VM : Type := mkVM {
  chunk : Chunk;
  ip : nat;
  stack : list Value;
  stackTop : Z
}.

(** What the process writes to standard output. *)
Inductive Output : Type :=
  | OutValue (v : Value)          (* printValue(v) *)
  | OutString (s : string)        (* printf(s) *)
  | OutDisassemble (offset : nat) (* disassembleInstruction(vm.chunk, offset) *).

(** The C string literal of [printf("\n")]. *)
Definition newline : string := String (ascii_of_nat 10) EmptyString.

Definition capacity (vm : VM) : Z := Z.of_nat (length (stack vm)).

(** [*(vm.stack + i)] as a read: defined inside the array only. *)
Definition slot (st : list Value) (i : Z) : option Value :=
  if decide (0 <= i) then st !! Z.to_nat i else None.

Definition resetStack (vm : VM) : VM :=
  {| chunk := chunk vm; ip := ip vm; stack := stack vm; stackTop := 0 |}.

Definition initVM (vm : VM) : VM := resetStack vm.

Definition freeVM (vm : VM) : VM := vm.

(** [*vm.stack = value; vm.stackTop++;] *)
Definition push (value : Value) (vm : VM) : VM :=
  {| chunk := chunk vm; ip := ip vm;
     stack := <[0%nat := value]> (stack vm);
     stackTop := stackTop vm + 1 |}.

(** [vm.stackTop--; return *vm.stackTop;]  The returned value is [None]
    when the read falls outside the array (C leaves it undefined). *)
Definition pop (vm : VM) : option Value * VM :=
  let vm' := {| chunk := chunk vm; ip := ip vm; stack := stack vm;
                stackTop := stackTop vm - 1 |} in
  (slot (stack vm') (stackTop vm'), vm').

(** [*vm.ip++]; [None] when the read is past the end of the code. *)
Definition READ_BYTE (vm : VM) : option (byte * VM) :=
  match code (chunk vm) !! ip vm with
  | Some b => Some (b, {| chunk := chunk vm; ip := S (ip vm);
                          stack := stack vm; stackTop := stackTop vm |})
  | None => None
  end.

(** [vm.chunk->constants.values[READ_BYTE()]] *)
Definition READ_CONSTANT (vm : VM) : option (Value * VM) :=
  match READ_BYTE vm with
  | Some (b, vm') =>
      match constants (chunk vm') !! Byte.to_nat b with
      | Some v => Some (v, vm')
      | None => None
      end
  | None => None
  end.

(** The outcome of one turn of the [for (;;)] loop of [run]. *)
Inductive Turn : Type :=
  | Continue (vm : VM) (out : list Output)
  | Return (r : InterpretResult) (vm : VM) (out : list Output)
  | Fault (* a read outside the code or the constant pool *).

(** The [#ifdef DEBUG_TRACE_EXECUTION] block at the head of the loop. *)
Definition trace_at (offset : nat) : list Output :=
  if DEBUG_TRACE_EXECUTION then [OutDisassemble offset] else [].

Definition trace (vm : VM) : list Output := trace_at (ip vm).

(** The body of the loop: the optional trace, the fetch, the switch.  A
    byte that matches no [case] label leaves the switch, and the loop
    goes on. *)
Definition turn (vm : VM) : Turn :=
  match READ_BYTE vm with
  | None => Fault
  | Some (instruction, vm1) =>
      if Byte.eqb instruction OP_CONSTANT then
        match READ_CONSTANT vm1 with
        | None => Fault
        | Some (constant, vm2) =>
            Continue vm2 (trace vm ++ [OutValue constant; OutString newline])
        end
      else if Byte.eqb instruction OP_RETURN then
        Return INTERPRET_OK vm1 (trace vm)
      else Continue vm1 (trace vm)
  end.

(** What [run] comes to. *)
Inductive Result : Type :=
  | Finished (r : InterpretResult) (vm : VM) (out : list Output)
  | Undefined
  | OutOfFuel.

Definition emit (o : list Output) (r : Result) : Result :=
  match r with
  | Finished x vm out => Finished x vm (o ++ out)
  | Undefined => Undefined
  | OutOfFuel => OutOfFuel
  end.

Fixpoint run_fuel (fuel : nat) (vm : VM) : Result :=
  match fuel with
  | O => OutOfFuel
  | S fuel' =>
      match turn vm with
      | Fault => Undefined
      | Return r vm' out => Finished r vm' out
      | Continue vm' out => emit out (run_fuel fuel' vm')
      end
  end.

(** Every turn moves [ip] forward and a read past the end of the code
    is a fault, so the bytes left to read bound the number of turns. *)
Definition run (vm : VM) : Result :=
  run_fuel (S (length (code (chunk vm)) - ip vm)) vm.

(** [vm.chunk = chunk; vm.ip = vm.chunk->code; return run();] *)
Definition interpret (c : Chunk) (vm : VM) : Result :=
  run {| chunk := c; ip := 0; stack := stack vm; stackTop := stackTop vm |}.

(** [n] calls of [push], in order, and [n] calls of [pop]. *)
Definition pushes (vs : list Value) (vm : VM) : VM :=
  fold_left (fun vm v => push v vm) vs vm.

Fixpoint pops (n : nat) (vm : VM) : list (option Value) * VM :=
  match n with
  | O => ([], vm)
  | S n' =>
      let '(v, vm1) := pop vm in
      let '(vs, vm2) := pops n' vm1 in
      (v :: vs, vm2)
  end.

(** *** Vocabulary of the properties *)

(** The live values of the stack: the slots below the top marker. *)
Definition live (vm : VM) : list Value :=
  take (Z.to_nat (stackTop vm)) (stack vm).

(** The top marker is inside the array or one past its end. *)
Definition in_bounds (vm : VM) : Prop :=
  0 <= stackTop vm <= capacity vm.

(** The instruction bytes of consecutive load-constant instructions with
    the operands [idxs]. *)
Definition load_constants (idxs : list byte) : list byte :=
  flat_map (fun i => [OP_CONSTANT; i]) idxs.

(** What executing them from [offset] writes when they load [vs]. *)
Fixpoint loads_output (offset : nat) (vs : list Value) : list Output :=
  match vs with
  | [] => []
  | v :: vs' =>
      trace_at offset ++ [OutValue v; OutString newline]
      ++ loads_output (2 + offset) vs'
  end.

End Machine.

(** A [vm] over integer values as [initVM] leaves it: a stack of four
    slots that hold 0, the top marker at the base of the stack, and no
    chunk loaded. *)
Definition zeroed_vm : @VM Z := mkVM (mkChunk [] []) 0 [0; 0; 0; 0] 0.

End Vm.

(** ** scanner.c *)

Module Scan.

(** scanner.h is missing: the token kinds are the enumerators that
    scanner.c names. *)
Inductive TokenType : Type :=
  | TOKEN_LEFT_PAREN | TOKEN_RIGHT_PAREN
  | TOKEN_LEFT_BRACE | TOKEN_RIGHT_BRACE
  | TOKEN_COMMA | TOKEN_DOT | TOKEN_MINUS | TOKEN_PLUS
  | TOKEN_SEMICOLON | TOKEN_SLASH | TOKEN_STAR
  | TOKEN_BANG | TOKEN_BANG_EQUAL
  | TOKEN_EQUAL | TOKEN_EQUAL_EQUAL
  | TOKEN_GREATER | TOKEN_GREATER_EQUAL
  | TOKEN_LESS | TOKEN_LESS_EQUAL
  | TOKEN_IDENTIFIER | TOKEN_STRING | TOKEN_NUMBER
  | TOKEN_AND | TOKEN_CLASS | TOKEN_ELSE | TOKEN_FALSE
  | TOKEN_FOR | TOKEN_FUN | TOKEN_IF | TOKEN_NIL | TOKEN_OR
  | TOKEN_PRINT | TOKEN_RETURN | TOKEN_SUPER | TOKEN_THIS
  | TOKEN_TRUE | TOKEN_VAR | TOKEN_WHILE
  | TOKEN_ERROR | TOKEN_EOF.

#[global] Instance TokenType_eq_dec : EqDecision TokenType.
Proof. solve_decision. Defined.

(** A [const char*] held by a token: a position of the source buffer, or
    one of the program's string literals. *)
Inductive CharPtr : Type :=
  | InSource (offset : nat)
  | Literal (text : list ascii).

(** The C type [int], taken to be 32 bits wide in two's complement. *)
Definition INT_MAX : Z := 2147483647.
Definition INT_MIN : Z := -2147483648.

(** The [int] that an integer is converted to by a cast, and that an
    [int] computation yields: the integer itself inside the range of
    [int], and its wrap-around modulo [2^32] outside, as the usual
    compilers and machines compute it (C leaves the result of the cast to
    the implementation, and the overflow of [int] arithmetic undefined).
    The properties below that state a length or a line as a plain number
    assume that it is in the range of [int]. *)
Definition to_int (z : Z) : Z :=
  (z + 2147483648) mod 4294967296 - 2147483648.

#[global] Arguments to_int : simpl never.

(** The [Token] structure that [makeToken] and [errorToken] fill;
    [length] and [line] are C [int]s. *)
Module Token.
Record t : Type := mk {
  type : TokenType;
  start : CharPtr;
  length : Z;
  line : Z
}.
End Token.

(** The global [Scanner scanner]: [start] and [current] are offsets into
    the source buffer, [line] is a C [int]. *)
Record Scanner : Type := mkScanner {
  start : nat;
  current : nat;
  line : Z
}.

Definition NUL : ascii := "000"%char.
Definition TAB : ascii := "009"%char.
Definition LF : ascii := "010"%char.
Definition CR : ascii := "013"%char.
Definition DQUOTE : ascii := "034"%char.

Definition isAlpha (c : ascii) : bool :=
  (("a" <=? c) && (c <=? "z") ||
   ("A" <=? c) && (c <=? "Z") ||
   (c =? "_"))%char.

Definition isDigit (c : ascii) : bool :=
  (("0" <=? c) && (c <=? "9"))%char.

(** A [while (cond) body;] loop of the scanner.  [None] when [fuel] turns
    did not reach the exit. *)
Fixpoint while (fuel : nat) (cond : Scanner -> bool)
    (body : Scanner -> Scanner) (s : Scanner) : option Scanner :=
  match fuel with
  | O => None
  | S fuel' => if cond s then while fuel' cond body (body s) else Some s
  end.

(** The number of newline characters of a text. *)
Fixpoint nl_count (l : list ascii) : Z :=
  match l with
  | [] => 0
  | c :: l' => (if (c =? LF)%char then 1 else 0) + nl_count l'
  end.

(** The line counter after [scanner.line++] for each newline of a text,
    from the value [l]. *)
Fixpoint line_after (l : Z) (text : list ascii) : Z :=
  match text with
  | [] => l
  | c :: text' =>
      line_after (if (c =? LF)%char then to_int (l + 1) else l) text'
  end.

(** Classes of characters: what each loop of the scanner goes over. *)
Definition any (c : ascii) : bool := true.

Definition not_eol (c : ascii) : bool :=
  negb (c =? LF)%char && negb (c =? NUL)%char.

Definition alnum (c : ascii) : bool := isAlpha c || isDigit c.

Definition not_quote (c : ascii) : bool :=
  negb (c =? DQUOTE)%char && negb (c =? NUL)%char.

Section Source.

(** The buffer given to [initScanner], without its terminator: a read at
    its length or beyond yields the sentinel. *)
Variable source : list ascii.

Definition char_at (i : nat) : ascii := default NUL (source !! i).

Definition initScanner : Scanner := mkScanner 0 0 1.

Definition isAtEnd (s : Scanner) : bool :=
  (char_at (current s) =? NUL)%char.

(** [scanner.current++; return scanner.current[-1];] *)
Definition advance (s : Scanner) : ascii * Scanner :=
  (char_at (current s), mkScanner (start s) (S (current s)) (line s)).

Definition peek (s : Scanner) : ascii := char_at (current s).

Definition peekNext (s : Scanner) : ascii :=
  if isAtEnd s then NUL else char_at (current s + 1).

Definition match_ (expected : ascii) (s : Scanner) : bool * Scanner :=
  if isAtEnd s then (false, s)
  else if negb (char_at (current s) =? expected)%char then (false, s)
  else (true, mkScanner (start s) (S (current s)) (line s)).

(** [token.length = (int)(scanner.current - scanner.start);] *)
Definition makeToken (type : TokenType) (s : Scanner) : Token.t :=
  Token.mk type (InSource (start s))
    (to_int (Z.of_nat (current s) - Z.of_nat (start s))) (line s).

(** [token.length = (int)strlen(message);] *)
Definition errorToken (message : list ascii) (s : Scanner) : Token.t :=
  Token.mk TOKEN_ERROR (Literal message)
    (to_int (Z.of_nat (List.length message))) (line s).

(** Turns that suffice for any loop started at [s]: each turn of each
    loop consumes a character other than the sentinel. *)
Definition fuel_for (s : Scanner) : nat :=
  S (List.length source - current s).

(** [scanner.line++;] on an [int]: past [INT_MAX] comes [INT_MIN]. *)
Definition next_line (s : Scanner) : Scanner :=
  mkScanner (start s) (current s) (to_int (line s + 1)).

Definition in_comment (s : Scanner) : bool :=
  negb (peek s =? LF)%char && negb (isAtEnd s).

Fixpoint skipWhitespace_loop (fuel : nat) (s : Scanner) : option Scanner :=
  match fuel with
  | O => None
  | S fuel' =>
      let c := peek s in
      if ((c =? " ") || (c =? CR) || (c =? TAB))%char then
        skipWhitespace_loop fuel' (advance s).2
      else if (c =? LF)%char then
        skipWhitespace_loop fuel' (advance (next_line s)).2
      else if (c =? "/")%char then
        if (peekNext s =? "/")%char then
          match while (fuel_for s) in_comment (fun s => (advance s).2) s with
          | Some s' => skipWhitespace_loop fuel' s'
          | None => None
          end
        else Some s
      else Some s
  end.

Definition skipWhitespace (s : Scanner) : option Scanner :=
  skipWhitespace_loop (fuel_for s) s.

(** [memcmp(scanner.start + start, rest, length) == 0] *)
Definition memcmp_eq (from : nat) (rest : list ascii) (n : nat) : bool :=
  bool_decide (take n (drop from source) = take n rest).

Definition checkKeyword (start_ length_ : nat) (rest : String.string)
    (type : TokenType) (s : Scanner) : TokenType :=
  if (Z.of_nat (current s) - Z.of_nat (start s) =? Z.of_nat (start_ + length_))
     && memcmp_eq (start s + start_) (list_ascii_of_string rest) length_
  then type
  else TOKEN_IDENTIFIER.

Definition identifierType (s : Scanner) : TokenType :=
  let c0 := char_at (start s) in
  let c1 := char_at (start s + 1) in
  if (c0 =? "a")%char then checkKeyword 1 2 "nd" TOKEN_AND s
  else if (c0 =? "c")%char then checkKeyword 1 4 "lass" TOKEN_CLASS s
  else if (c0 =? "e")%char then checkKeyword 1 3 "lse" TOKEN_ELSE s
  else if (c0 =? "f")%char then
    if (1 <? Z.of_nat (current s) - Z.of_nat (start s)) then
      if (c1 =? "a")%char then checkKeyword 2 3 "lse" TOKEN_FALSE s
      else if (c1 =? "o")%char then checkKeyword 2 1 "r" TOKEN_FOR s
      else if (c1 =? "u")%char then checkKeyword 2 1 "n" TOKEN_FUN s
      else TOKEN_IDENTIFIER
    else TOKEN_IDENTIFIER
  else if (c0 =? "i")%char then checkKeyword 1 1 "f" TOKEN_IF s
  else if (c0 =? "n")%char then checkKeyword 1 2 "il" TOKEN_NIL s
  else if (c0 =? "o")%char then checkKeyword 1 1 "r" TOKEN_OR s
  else if (c0 =? "p")%char then checkKeyword 1 4 "rint" TOKEN_PRINT s
  else if (c0 =? "r")%char then checkKeyword 1 5 "eturn" TOKEN_RETURN s
  else if (c0 =? "s")%char then checkKeyword 1 4 "uper" TOKEN_SUPER s
  else if (c0 =? "t")%char then
    if (1 <? Z.of_nat (current s) - Z.of_nat (start s)) then
      if (c1 =? "h")%char then checkKeyword 2 2 "is" TOKEN_THIS s
      else if (c1 =? "r")%char then checkKeyword 2 2 "ue" TOKEN_TRUE s
      else TOKEN_IDENTIFIER
    else TOKEN_IDENTIFIER
  else if (c0 =? "v")%char then checkKeyword 1 2 "ar" TOKEN_VAR s
  else if (c0 =? "w")%char then checkKeyword 1 4 "hile" TOKEN_WHILE s
  else TOKEN_IDENTIFIER.

Definition is_alnum (s : Scanner) : bool :=
  isAlpha (peek s) || isDigit (peek s).

Definition identifier (s : Scanner) : option (Token.t * Scanner) :=
  match while (fuel_for s) is_alnum (fun s => (advance s).2) s with
  | Some s1 => Some (makeToken (identifierType s1) s1, s1)
  | None => None
  end.

Definition is_digit (s : Scanner) : bool := isDigit (peek s).

Definition number (s : Scanner) : option (Token.t * Scanner) :=
  match while (fuel_for s) is_digit (fun s => (advance s).2) s with
  | Some s1 =>
      if (peek s1 =? ".")%char && isDigit (peekNext s1) then
        let s2 := (advance s1).2 in
        match while (fuel_for s2) is_digit (fun s => (advance s).2) s2 with
        | Some s3 => Some (makeToken TOKEN_NUMBER s3, s3)
        | None => None
        end
      else Some (makeToken TOKEN_NUMBER s1, s1)
  | None => None
  end.

Definition in_string (s : Scanner) : bool :=
  negb (peek s =? DQUOTE)%char && negb (isAtEnd s).

Definition string_turn (s : Scanner) : Scanner :=
  (advance (if (peek s =? LF)%char then next_line s else s)).2.

Definition string (s : Scanner) : option (Token.t * Scanner) :=
  match while (fuel_for s) in_string string_turn s with
  | Some s1 =>
      if isAtEnd s1 then
        Some (errorToken (list_ascii_of_string "Unterminated string.") s1, s1)
      else
        let s2 := (advance s1).2 in
        Some (makeToken TOKEN_STRING s2, s2)
  | None => None
  end.

(** [return makeToken(match(second) ? two : one);] *)
Definition one_or_two (second : ascii) (two one : TokenType)
    (s : Scanner) : option (Token.t * Scanner) :=
  let '(m, s') := match_ second s in
  Some (makeToken (if m then two else one) s', s').

Definition scanToken (s : Scanner) : option (Token.t * Scanner) :=
  match skipWhitespace s with
  | None => None
  | Some s0 =>
      let s1 := mkScanner (current s0) (current s0) (line s0) in
      if isAtEnd s1 then Some (makeToken TOKEN_EOF s1, s1)
      else
        let '(c, s2) := advance s1 in
        if isAlpha c then identifier s2
        else if isDigit c then number s2
        else if (c =? "(")%char then Some (makeToken TOKEN_LEFT_PAREN s2, s2)
        else if (c =? ")")%char then Some (makeToken TOKEN_RIGHT_PAREN s2, s2)
        else if (c =? "{")%char then Some (makeToken TOKEN_LEFT_BRACE s2, s2)
        else if (c =? "}")%char then Some (makeToken TOKEN_RIGHT_BRACE s2, s2)
        else if (c =? ";")%char then Some (makeToken TOKEN_SEMICOLON s2, s2)
        else if (c =? ",")%char then Some (makeToken TOKEN_COMMA s2, s2)
        else if (c =? ".")%char then Some (makeToken TOKEN_DOT s2, s2)
        else if (c =? "-")%char then Some (makeToken TOKEN_MINUS s2, s2)
        else if (c =? "+")%char then Some (makeToken TOKEN_PLUS s2, s2)
        else if (c =? "/")%char then Some (makeToken TOKEN_SLASH s2, s2)
        else if (c =? "*")%char then Some (makeToken TOKEN_STAR s2, s2)
        else if (c =? "!")%char then
          one_or_two "=" TOKEN_BANG_EQUAL TOKEN_BANG s2
        else if (c =? "=")%char then
          one_or_two "=" TOKEN_EQUAL_EQUAL TOKEN_EQUAL s2
        else if (c =? "<")%char then
          one_or_two "=" TOKEN_LESS_EQUAL TOKEN_LESS s2
        else if (c =? ">")%char then
          one_or_two "=" TOKEN_GREATER_EQUAL TOKEN_GREATER s2
        else if (c =? DQUOTE)%char then string s2
        else
          Some (errorToken (list_ascii_of_string "Unexpected character.") s2,
                s2)
  end.

(** *** Vocabulary of the properties *)

(** The characters of the buffer from offset [i] up to offset [j]. *)
Definition slice (i j : nat) : list ascii := take (j - i) (drop i source).


(** [s'] comes from [s] by consuming characters that all satisfy [P],
    counting the newlines among them. *)
Definition consumed (P : ascii -> bool) (s s' : Scanner) : Prop :=
  start s' = start s /\
  (current s <= current s')%nat /\
  (current s' <= Nat.max (current s) (List.length source))%nat /\
  line s' = line_after (line s) (slice (current s) (current s')) /\
  forall i, (current s <= i < current s')%nat -> P (char_at i) = true.

(** What holds of the token [tok] and the state [s'] that a call leaves
    when its lexeme starts at offset [o], on the line [l]. *)
Definition token_post (o : nat) (l : Z) (tok : Token.t) (s' : Scanner) : Prop :=
  start s' = o /\
  (o < current s' <= (List.length source))%nat /\
  line s' = line_after l (slice o (current s')) /\
  Token.line tok = line s' /\
  Token.type tok <> TOKEN_EOF /\
  (Token.type tok <> TOKEN_ERROR ->
     tok = makeToken (Token.type tok) s') /\
  (char_at o <> DQUOTE -> nl_count (slice o (current s')) = 0).

(** What holds of the token [tok] and the state [s'] that a call of
    [scanToken] in the state [s] leaves. *)
Definition scan_post (s : Scanner) (tok : Token.t) (s' : Scanner) : Prop :=
  (current s <= start s' <= current s')%nat /\
  (current s' <= Nat.max (current s) (List.length source))%nat /\
  line s' = line_after (line s) (slice (current s) (current s')) /\
  Token.line tok = line s' /\
  (Token.type tok = TOKEN_EOF -> isAtEnd s' = true /\ start s' = current s') /\
  (Token.type tok <> TOKEN_EOF -> (start s' < current s' <= (List.length source))%nat) /\
  (Token.type tok <> TOKEN_ERROR -> tok = makeToken (Token.type tok) s') /\
  (char_at (start s') <> DQUOTE ->
     nl_count (slice (start s') (current s')) = 0) /\
  (isAtEnd s = false -> (current s < current s')%nat).


End Source.


(** The keyword table of the specification: the exact strings and their
    kinds. *)
Definition keywords : list (String.string * TokenType) :=
  [ ("and", TOKEN_AND); ("class", TOKEN_CLASS); ("else", TOKEN_ELSE);
    ("false", TOKEN_FALSE); ("for", TOKEN_FOR); ("fun", TOKEN_FUN);
    ("if", TOKEN_IF); ("nil", TOKEN_NIL); ("or", TOKEN_OR);
    ("print", TOKEN_PRINT); ("return", TOKEN_RETURN);
    ("super", TOKEN_SUPER); ("this", TOKEN_THIS); ("true", TOKEN_TRUE);
    ("var", TOKEN_VAR); ("while", TOKEN_WHILE) ]%string.

Fixpoint lexeme_eqb (l k : list ascii) : bool :=
  match l, k with
  | [], [] => true
  | a :: l', b :: k' => (a =? b)%char && lexeme_eqb l' k'
  | _, _ => false
  end.

(** The kind the specification gives a lexeme of letters, digits and
    underscores: the kind of the table entry it equals, in length and
    content, and [TOKEN_IDENTIFIER] when it equals none. *)
Fixpoint lookup_keyword (lexeme : list ascii)
    (table : list (String.string * TokenType)) : TokenType :=
  match table with
  | [] => TOKEN_IDENTIFIER
  | (k, type) :: table' =>
      if lexeme_eqb lexeme (list_ascii_of_string k) then type
      else lookup_keyword lexeme table'
  end.

Definition keywordKind (lexeme : list ascii) : TokenType :=
  lookup_keyword lexeme keywords.

(** The characters that [skipWhitespace] passes one by one. *)
Definition is_space (c : ascii) : bool :=
  ((c =? " ") || (c =? CR) || (c =? TAB) || (c =? LF))%char.

(** The kind of the one-character tokens of the [switch] of [scanToken]. *)
Definition punctuation_kind (c : ascii) : option TokenType :=
  if (c =? "(")%char then Some TOKEN_LEFT_PAREN
  else if (c =? ")")%char then Some TOKEN_RIGHT_PAREN
  else if (c =? "{")%char then Some TOKEN_LEFT_BRACE
  else if (c =? "}")%char then Some TOKEN_RIGHT_BRACE
  else if (c =? ";")%char then Some TOKEN_SEMICOLON
  else if (c =? ",")%char then Some TOKEN_COMMA
  else if (c =? ".")%char then Some TOKEN_DOT
  else if (c =? "-")%char then Some TOKEN_MINUS
  else if (c =? "+")%char then Some TOKEN_PLUS
  else if (c =? "/")%char then Some TOKEN_SLASH
  else if (c =? "*")%char then Some TOKEN_STAR
  else None.

(** The characters that start a one- or two-character operator, with the
    kind of the operator followed by [=] and the kind of the operator
    alone. *)
Definition operator_kinds (c : ascii) : option (TokenType * TokenType) :=
  if (c =? "!")%char then Some (TOKEN_BANG_EQUAL, TOKEN_BANG)
  else if (c =? "=")%char then Some (TOKEN_EQUAL_EQUAL, TOKEN_EQUAL)
  else if (c =? "<")%char then Some (TOKEN_LESS_EQUAL, TOKEN_LESS)
  else if (c =? ">")%char then Some (TOKEN_GREATER_EQUAL, TOKEN_GREATER)
  else None.

(** The characters that [scanToken] has a branch for. *)
Definition starts_token (c : ascii) : bool :=
  isAlpha c || isDigit c ||
  bool_decide (is_Some (punctuation_kind c)) ||
  bool_decide (is_Some (operator_kinds c)) ||
  (c =? DQUOTE)%char.

(** The cursor of [s] is at the two slashes of a line comment. *)
Definition at_comment (source : list ascii) (s : Scanner) : bool :=
  ((peek source s =? "/") && (peekNext source s =? "/"))%char.

End Scan.

(** ** Properties of vm.c *)

Module VmFacts.
Import Vm.

Section Machine.

Context {Value : Type}.
Variables OP_CONSTANT OP_RETURN : byte.
Variable DEBUG_TRACE_EXECUTION : bool.

Local Abbreviation turn := (turn OP_CONSTANT OP_RETURN DEBUG_TRACE_EXECUTION).
Local Abbreviation run_fuel := (run_fuel OP_CONSTANT OP_RETURN DEBUG_TRACE_EXECUTION).
Local Abbreviation run := (run OP_CONSTANT OP_RETURN DEBUG_TRACE_EXECUTION).
Local Abbreviation interpret := (interpret OP_CONSTANT OP_RETURN DEBUG_TRACE_EXECUTION).
Local Abbreviation trace := (trace DEBUG_TRACE_EXECUTION).
Local Abbreviation trace_at := (trace_at (Value:=Value) DEBUG_TRACE_EXECUTION).
Local Abbreviation loads_output := (loads_output DEBUG_TRACE_EXECUTION).
Local Abbreviation VM := (@VM Value).

Implicit Types (vm : VM) (b : byte) (v : Value).

(** *** Reads *)

Lemma READ_BYTE_Some vm b vm' :
  READ_BYTE vm = Some (b, vm') <->
  code (chunk vm) !! ip vm = Some b /\
  vm' = mkVM (chunk vm) (S (ip vm)) (stack vm) (stackTop vm).
Proof.
  unfold READ_BYTE. destruct (code (chunk vm) !! ip vm) as [b'|].
  - split; [by intros [= <- <-]|by intros [[= <-] ->]].
  - split; [done|by intros [? _]].
Qed.

Lemma READ_CONSTANT_Some vm v vm' :
  READ_CONSTANT vm = Some (v, vm') <->
  exists b, code (chunk vm) !! ip vm = Some b /\
    constants (chunk vm) !! Byte.to_nat b = Some v /\
    vm' = mkVM (chunk vm) (S (ip vm)) (stack vm) (stackTop vm).
Proof.
  unfold READ_CONSTANT, READ_BYTE.
  destruct (code (chunk vm) !! ip vm) as [b|]; simpl.
  - destruct (constants (chunk vm) !! Byte.to_nat b) as [c|] eqn:Ec.
    + split.
      * intros [= <- <-]. by exists b.
      * intros (b' & [= <-] & Hc & ->). rewrite Ec in Hc. by simplify_eq.
    + split; [done|]. intros (b' & [= <-] & Hc & _). congruence.
  - split; [done|]. by intros (b' & ? & _).
Qed.

(** *** One turn of the loop touches the instruction pointer only *)

Lemma turn_Continue vm vm' out :
  turn vm = Continue vm' out ->
  chunk vm' = chunk vm /\ stack vm' = stack vm /\
  stackTop vm' = stackTop vm /\
  (ip vm < ip vm' <= length (code (chunk vm)))%nat.
Proof.
  unfold turn. destruct (READ_BYTE vm) as [[b vm1]|] eqn:E1; [|done].
  apply READ_BYTE_Some in E1 as [Hb ->].
  pose proof (lookup_lt_Some _ _ _ Hb) as Hlt.
  destruct (Byte.eqb b OP_CONSTANT).
  - destruct (READ_CONSTANT _) as [[v vm2]|] eqn:E2; [|done].
    apply READ_CONSTANT_Some in E2 as (b' & Hb' & _ & ->). simpl in *.
    apply lookup_lt_Some in Hb'. intros [= <- <-]. simpl.
    repeat split; lia.
  - destruct (Byte.eqb b OP_RETURN); [done|].
    intros [= <- <-]. simpl. repeat split; lia.
Qed.

Lemma turn_Return vm r vm' out :
  turn vm = Return r vm' out ->
  r = INTERPRET_OK /\ chunk vm' = chunk vm /\ stack vm' = stack vm /\
  stackTop vm' = stackTop vm /\ out = trace vm.
Proof.
  unfold turn. destruct (READ_BYTE vm) as [[b vm1]|] eqn:E1; [|done].
  apply READ_BYTE_Some in E1 as [Hb ->].
  destruct (Byte.eqb b OP_CONSTANT).
  - destruct (READ_CONSTANT _) as [[v vm2]|]; done.
  - destruct (Byte.eqb b OP_RETURN); [|done]. by intros [= <- <- <-].
Qed.

(** *** The fuel of [run] suffices *)

Lemma run_fuel_stable f1 : forall f2 vm,
  (length (code (chunk vm)) - ip vm < f1)%nat ->
  (length (code (chunk vm)) - ip vm < f2)%nat ->
  run_fuel f1 vm = run_fuel f2 vm.
Proof.
  induction f1 as [|f1 IH]; intros f2 vm H1 H2; [lia|].
  destruct f2 as [|f2]; [lia|]. simpl.
  destruct (turn vm) as [vm' out| |] eqn:E; try done.
  apply turn_Continue in E as (Hc & _ & _ & Hip).
  f_equal. apply IH; rewrite Hc; lia.
Qed.

(** The loop of [run], unfolded once. *)
Lemma run_unfold vm :
  run vm =
  match turn vm with
  | Fault => Undefined
  | Return r vm' out => Finished r vm' out
  | Continue vm' out => emit out (run vm')
  end.
Proof.
  unfold run at 1. simpl.
  destruct (turn vm) as [vm' out| |] eqn:E; try done.
  f_equal. apply turn_Continue in E as (Hc & _ & _ & Hip).
  apply run_fuel_stable; rewrite Hc; lia.
Qed.

Lemma run_fuel_not_out_of_fuel f : forall vm,
  (length (code (chunk vm)) - ip vm < f)%nat ->
  run_fuel f vm <> OutOfFuel.
Proof.
  induction f as [|f IH]; intros vm Hf; [lia|]. simpl.
  destruct (turn vm) as [vm' out| |] eqn:E; try done.
  apply turn_Continue in E as (Hc & _ & _ & Hip).
  specialize (IH vm'). rewrite Hc in IH.
  destruct (run_fuel f vm'); simpl; try done. intros _. apply IH; [lia|done].
Qed.

Lemma run_total vm : run vm <> OutOfFuel.
Proof. apply run_fuel_not_out_of_fuel. lia. Qed.

Lemma eqb_opcode_true b : Byte.eqb b b = true.
Proof. by apply Byte.byte_dec_lb. Qed.

Lemma eqb_opcode_false b b' : b <> b' -> Byte.eqb b b' = false.
Proof.
  intros Hne. destruct (Byte.eqb b b') eqn:E; [|done].
  by apply Byte.byte_dec_bl in E.
Qed.

(** *** What [run] leaves alone *)

Lemma run_fuel_Finished f : forall vm r vm' out,
  run_fuel f vm = Finished r vm' out ->
  r = INTERPRET_OK /\ chunk vm' = chunk vm /\
  stack vm' = stack vm /\ stackTop vm' = stackTop vm.
Proof.
  induction f as [|f IH]; intros vm r vm' out; [done|]. simpl.
  destruct (turn vm) as [vm1 out1|r1 vm1 out1|] eqn:E; [| |done].
  - apply turn_Continue in E as (Hc & Hs & Ht & _).
    destruct (run_fuel f vm1) as [r2 vm2 out2| |] eqn:E2; [|done..].
    simpl. intros [= <- <- <-].
    apply IH in E2 as (-> & -> & -> & ->). by rewrite Hc, Hs, Ht.
  - apply turn_Return in E as (-> & Hc & Hs & Ht & _). by intros [= <- <- <-].
Qed.

(** *** A run of load-constant instructions, then return *)

Lemma run_loads idxs : forall vs pre tail vm,
  OP_CONSTANT <> OP_RETURN ->
  code (chunk vm) = pre ++ load_constants OP_CONSTANT idxs ++ OP_RETURN :: tail ->
  ip vm = length pre ->
  Forall2 (fun i v => constants (chunk vm) !! Byte.to_nat i = Some v) idxs vs ->
  run vm =
  Finished INTERPRET_OK
    (mkVM (chunk vm) (length pre + 2 * length idxs + 1) (stack vm) (stackTop vm))
    (loads_output (length pre) vs ++ trace_at (length pre + 2 * length idxs)).
Proof.
  induction idxs as [|i idxs IH]; intros vs pre tail vm Hne Hcode Hip Hvs.
  - apply Forall2_nil_inv_l in Hvs as ->. simpl in *.
    rewrite run_unfold. unfold turn, READ_BYTE.
    rewrite Hcode, Hip, list_lookup_middle by done.
    rewrite eqb_opcode_false by done. rewrite eqb_opcode_true.
    unfold trace. rewrite Hip.
    replace (length pre + 0 + 1)%nat with (S (length pre)) by lia.
    replace (length pre + 0)%nat with (length pre) by lia.
    done.
  - apply Forall2_cons_inv_l in Hvs as (v & vs' & Hv & Hvs & ->).
    simpl in Hcode.
    assert (code (chunk vm) !! length pre = Some OP_CONSTANT) as H0.
    { rewrite Hcode. by apply list_lookup_middle. }
    assert (code (chunk vm) !! S (length pre) = Some i) as H1.
    { rewrite Hcode, lookup_app_r by lia.
      by replace (S (length pre) - length pre)%nat with 1%nat by lia. }
    rewrite run_unfold. unfold turn, READ_CONSTANT, READ_BYTE.
    rewrite Hip, H0, eqb_opcode_true. cbn [ip chunk]. rewrite H1.
    cbn [ip chunk]. rewrite Hv.
    rewrite (IH vs' (pre ++ [OP_CONSTANT; i]) tail); cbn [ip chunk stack stackTop];
      try done.
    + rewrite length_app. cbn [length emit loads_output]. unfold trace.
      rewrite Hip, <- !app_assoc. cbn [app].
      replace (length pre + 2)%nat with (2 + length pre)%nat by lia.
      by replace (length pre + 2 * S (length idxs))%nat
        with (2 + length pre + 2 * length idxs)%nat by lia.
    + by rewrite Hcode, <- app_assoc.
    + rewrite length_app. simpl. lia.
Qed.

(** *** C1: [load-constant 0, return] *)

(** C1 (as amended): for every container whose instruction stream is
    exactly [load-constant 0, return] and whose constant pool has at least
    one value, [interpret] returns the success outcome; the load-constant
    instruction does not push: at the return the stack and its top marker
    are what they were at the call, and the constant at pool index 0 was
    written to standard output, followed by a newline. *)
Theorem interpret_constant_return (c : Chunk) vm :
  OP_CONSTANT <> OP_RETURN ->
  code c = [OP_CONSTANT; x00; OP_RETURN] ->
  (1 <= length (constants c))%nat ->
  exists v, constants c !! 0%nat = Some v /\
    interpret c vm =
    Finished INTERPRET_OK (mkVM c 3 (stack vm) (stackTop vm))
      (trace_at 0 ++ [OutValue v; OutString newline] ++ trace_at 2).
Proof.
  intros Hne Hcode Hpool.
  destruct (constants c) as [|v pool] eqn:Ec; [simpl in Hpool; lia|].
  exists v. split; [done|]. unfold interpret.
  rewrite (run_loads [x00] [v] [] []); cbn [chunk ip stack stackTop]; try done.
  - simpl. by rewrite <- app_assoc.
  - constructor; [|constructor]. by rewrite Ec.
Qed.

(** *** C2: a byte outside the opcode enumeration *)

(** C2 (as amended): when the next fetched byte is neither load-constant
    nor return, the dispatch loop skips it and goes on with the byte after
    it; no run of the loop yields a runtime-error outcome: whenever [run]
    returns, it returns the success outcome. *)
Theorem unknown_opcode_skipped vm b :
  code (chunk vm) !! ip vm = Some b ->
  b <> OP_CONSTANT -> b <> OP_RETURN ->
  run vm =
    emit (trace vm)
      (run (mkVM (chunk vm) (S (ip vm)) (stack vm) (stackTop vm))) /\
  forall r vm' out, run vm = Finished r vm' out -> r = INTERPRET_OK.
Proof.
  intros Hb Hc Hr. split.
  - rewrite run_unfold. unfold turn, READ_BYTE. rewrite Hb.
    by rewrite !eqb_opcode_false by done.
  - intros r vm' out Hrun. by apply run_fuel_Finished in Hrun as (-> & _).
Qed.

(** *** C5: the state in which [interpret] enters the loop *)

(** C5 (as amended): for every bytecode container, [interpret] enters the
    dispatch loop with the instruction pointer at the container's first
    instruction and with the evaluation stack as earlier activity left it
    (the same live values); the stack is empty there when the call comes
    right after [initVM]. *)
Theorem interpret_entry_state (c : Chunk) vm :
  interpret c vm = run (mkVM c 0 (stack vm) (stackTop vm)) /\
  live (mkVM c 0 (stack vm) (stackTop vm)) = live vm /\
  live (mkVM c 0 (stack (initVM vm)) (stackTop (initVM vm))) = [].
Proof. done. Qed.

(** *** C6: what running load-constant and return touches *)

(** C6 (as amended): executing a container that is a sequence of
    load-constant instructions with valid operands followed by return
    changes, of the VM, the instruction pointer only (the stack and its top
    marker are left as they were), and it does write to standard output:
    every loaded constant followed by a newline, in order (and the
    disassembly of each instruction when tracing is compiled in). *)
Theorem loads_touch_ip_and_output (c : Chunk) idxs vs tail vm :
  OP_CONSTANT <> OP_RETURN ->
  code c = load_constants OP_CONSTANT idxs ++ OP_RETURN :: tail ->
  Forall2 (fun i v => constants c !! Byte.to_nat i = Some v) idxs vs ->
  interpret c vm =
  Finished INTERPRET_OK
    (mkVM c (2 * length idxs + 1) (stack vm) (stackTop vm))
    (loads_output 0 vs ++ trace_at (2 * length idxs)).
Proof.
  intros Hne Hcode Hvs. unfold interpret.
  by rewrite (run_loads idxs vs [] tail).
Qed.

End Machine.

(** *** C3 and C4: [push] and [pop] *)

(** C3 (the code at a failing input): two pushes of 1 and 2 on an empty
    stack whose slots hold 0, then two pops, return the stale content of
    slot 1 and then 2, not 2 and then 1: [push] stores at the base of the
    array instead of the top marker. *)
Theorem push_pop_not_lifo :
  pops 2 (pushes [1; 2] (initVM zeroed_vm)) =
  ([Some 0; Some 2], mkVM (mkChunk [] []) 0 [2; 0; 0; 0] 0).
Proof. reflexivity. Qed.

(** C4 (as amended): [push] and [pop] check nothing and report nothing.
    From a stack whose top marker is within the array, [push] advances the
    marker by one and keeps it within the array exactly when the stack was
    not full, and [pop] retreats it by one and keeps it within the array
    exactly when the stack was not empty; a [pop] on an empty stack reads
    outside the array. *)
Theorem push_pop_unchecked {Value : Type} (v : Value) (vm : VM) :
  in_bounds vm ->
  stackTop (push v vm) = stackTop vm + 1 /\
  stackTop (pop vm).2 = stackTop vm - 1 /\
  (in_bounds (push v vm) <-> stackTop vm < capacity vm) /\
  (in_bounds (pop vm).2 <-> 0 < stackTop vm) /\
  (stackTop vm = 0 -> (pop vm).1 = None).
Proof.
  unfold in_bounds, capacity, push, pop. simpl. intros Hin.
  rewrite length_insert. repeat split; try lia.
  intros ->. unfold slot. by rewrite decide_False by lia.
Qed.

Lemma push_pop_unchecked_witness :
  in_bounds zeroed_vm /\
  stackTop (push 9 zeroed_vm) = stackTop zeroed_vm + 1 /\
  stackTop (pop zeroed_vm).2 = stackTop zeroed_vm - 1 /\
  (in_bounds (push 9 zeroed_vm) <-> stackTop zeroed_vm < capacity zeroed_vm) /\
  (in_bounds (pop zeroed_vm).2 <-> 0 < stackTop zeroed_vm) /\
  (stackTop zeroed_vm = 0 -> (pop zeroed_vm).1 = None).
Proof.
  assert (in_bounds zeroed_vm) as Hin by (unfold in_bounds, capacity; simpl; lia).
  split; [exact Hin | exact (push_pop_unchecked 9 zeroed_vm Hin)].
Defined.

(** C4 (counterexample): a push on a full stack of four slots overwrites
    slot 0 and moves the top marker to 5, past the capacity; a pop on an
    empty stack moves the marker to -1 and yields no defined value.
    Neither reports anything. *)
Lemma push_full_pop_empty_unreported :
  push 9 (mkVM (mkChunk [] []) 0 [1; 2; 3; 4] 4) =
    mkVM (mkChunk [] []) 0 [9; 2; 3; 4] 5 /\
  pop (initVM zeroed_vm) = (None, mkVM (mkChunk [] []) 0 [0; 0; 0; 0] (-1)).
Proof. split; reflexivity. Qed.

(** *** Concrete runs with the opcode bytes 0 and 1 *)

(** C1 (counterexample): [load-constant 0, return] over the pool [42]
    returns success with no live value on the stack. *)
Lemma constant_return_pushes_nothing :
  interpret x00 x01 false (mkChunk [x00; x00; x01] [42]) (initVM zeroed_vm) =
    Finished INTERPRET_OK
      (mkVM (mkChunk [x00; x00; x01] [42]) 3 [0; 0; 0; 0] 0)
      [OutValue 42; OutString newline] /\
  live (mkVM (mkChunk [x00; x00; x01] [42]) 3 [0; 0; 0; 0] 0) = [].
Proof. split; reflexivity. Qed.

Lemma interpret_constant_return_witness :
  x00 <> x01 /\
  exists v, constants (mkChunk [x00; x00; x01] [42]) !! 0%nat = Some v /\
    interpret x00 x01 false (mkChunk [x00; x00; x01] [42]) zeroed_vm =
    Finished INTERPRET_OK
      (mkVM (mkChunk [x00; x00; x01] [42]) 3 (stack zeroed_vm) (stackTop zeroed_vm))
      (trace_at false 0 ++ [OutValue 42; OutString newline] ++ trace_at false 2).
Proof.
  assert (x00 <> x01) as Hne by discriminate.
  split; [exact Hne|].
  destruct (interpret_constant_return x00 x01 false
              (mkChunk [x00; x00; x01] [42]) zeroed_vm Hne eq_refl
              (le_n 1)) as (v & Hv & Hrun).
  exists v. split; [exact Hv|]. injection Hv as <-. exact Hrun.
Defined.

(** C2 (counterexample): the byte 7 is outside the enumeration, and
    [7, return] yields the success outcome. *)
Lemma unknown_opcode_yields_success :
  interpret x00 x01 false (mkChunk [x07; x01] []) (initVM zeroed_vm) =
  Finished INTERPRET_OK (mkVM (mkChunk [x07; x01] []) 2 [0; 0; 0; 0] 0) [].
Proof. reflexivity. Qed.

Lemma unknown_opcode_skipped_witness :
  run x00 x01 false (mkVM (mkChunk [x07; x01] []) 0 [0; 0; 0; 0] 0) =
    emit (trace false (mkVM (mkChunk [x07; x01] []) 0 [0; 0; 0; 0] 0))
      (run x00 x01 false (mkVM (mkChunk [x07; x01] []) 1 [0; 0; 0; 0] 0)) /\
  forall r vm' out,
    run x00 x01 false (mkVM (mkChunk [x07; x01] []) 0 [0; 0; 0; 0] 0) =
      Finished r vm' out -> r = INTERPRET_OK.
Proof.
  apply (unknown_opcode_skipped x00 x01 false
           (mkVM (mkChunk [x07; x01] []) 0 [0; 0; 0; 0] 0) x07);
    [reflexivity | discriminate | discriminate].
Defined.

(** C5 (counterexample): a value pushed before the call is still live when
    the first instruction, a return, executes. *)
Lemma interpret_keeps_earlier_stack :
  interpret x00 x01 false (mkChunk [x01] []) (push 7 (initVM zeroed_vm)) =
    Finished INTERPRET_OK (mkVM (mkChunk [x01] []) 1 [7; 0; 0; 0] 1) [] /\
  live (mkVM (mkChunk [x01] []) 1 [7; 0; 0; 0] 1) = [7].
Proof. split; reflexivity. Qed.

(** C6 (counterexample): two load-constant instructions and a return
    write both constants to standard output. *)
Lemma load_constant_writes_output :
  interpret x00 x01 false (mkChunk [x00; x01; x00; x00; x01] [42; 7])
    (initVM zeroed_vm) =
  Finished INTERPRET_OK
    (mkVM (mkChunk [x00; x01; x00; x00; x01] [42; 7]) 5 [0; 0; 0; 0] 0)
    [OutValue 7; OutString newline; OutValue 42; OutString newline].
Proof. reflexivity. Qed.

Lemma loads_touch_ip_and_output_witness :
  x00 <> x01 /\
  interpret x00 x01 false (mkChunk [x00; x01; x00; x00; x01] [42; 7]) zeroed_vm =
  Finished INTERPRET_OK
    (mkVM (mkChunk [x00; x01; x00; x00; x01] [42; 7])
       (2 * length [x01; x00] + 1) (stack zeroed_vm) (stackTop zeroed_vm))
    (loads_output false 0 [7; 42] ++ trace_at false (2 * length [x01; x00])).
Proof.
  assert (x00 <> x01) as Hne by discriminate.
  split; [exact Hne|].
  apply (loads_touch_ip_and_output x00 x01 false
           (mkChunk [x00; x01; x00; x00; x01] [42; 7]) [x01; x00] [7; 42] []
           zeroed_vm Hne eq_refl).
  repeat constructor.
Defined.

End VmFacts.

(** ** Properties of scanner.c *)

Module ScanFacts.
Import Scan.

Lemma nl_count_app l k : nl_count (l ++ k) = nl_count l + nl_count k.
Proof. induction l as [|c l IH]; simpl; [done|]. rewrite IH. lia. Qed.


Lemma nl_count_nonneg l : 0 <= nl_count l.
Proof. induction l as [|c l IH]; simpl; [done|]. destruct (c =? LF)%char; lia. Qed.

(** *** The C [int] *)

Lemma to_int_small z : INT_MIN <= z <= INT_MAX -> to_int z = z.
Proof.
  unfold INT_MIN, INT_MAX, to_int. intros H.
  rewrite Z.mod_small by lia. lia.
Qed.

Lemma line_after_app l a b :
  line_after l (a ++ b) = line_after (line_after l a) b.
Proof. revert l. induction a as [|c a IH]; intros l; simpl; [done|]. apply IH. Qed.

Lemma line_after_one c l : c <> LF -> line_after l [c] = l.
Proof. intros H. simpl. apply Ascii.eqb_neq in H. by rewrite H. Qed.

Lemma line_after_no_newline text : forall l,
  nl_count text = 0 -> line_after l text = l.
Proof.
  induction text as [|c text IH]; intros l; simpl; [done|].
  pose proof (nl_count_nonneg text). destruct (c =? LF)%char; [lia|].
  intros H0. apply IH. lia.
Qed.

(** Without overflow the counter has grown by the number of newlines. *)
Lemma line_after_small text : forall l,
  INT_MIN <= l -> l + nl_count text <= INT_MAX ->
  line_after l text = l + nl_count text.
Proof.
  induction text as [|c text IH]; intros l Hmin Hmax; simpl in *; [lia|].
  pose proof (nl_count_nonneg text).
  destruct (c =? LF)%char.
  - rewrite to_int_small by lia. rewrite IH; lia.
  - rewrite IH; lia.
Qed.

Lemma lexeme_eqb_eq l : forall k, lexeme_eqb l k = true <-> l = k.
Proof.
  induction l as [|a l IH]; intros [|b k]; simpl; try done.
  rewrite andb_true_iff, Ascii.eqb_eq, IH.
  split; [by intros [-> ->]|by intros [= -> ->]].
Qed.

Section Source.

Variable source : list ascii.

Local Abbreviation L := (length source).
Local Abbreviation char_at := (char_at source).
Local Abbreviation peek := (peek source).
Local Abbreviation isAtEnd := (isAtEnd source).
Local Abbreviation advance := (advance source).
Local Abbreviation slice := (slice source).
Local Abbreviation consumed := (consumed source).
Local Abbreviation token_post := (token_post source).
Local Abbreviation scan_post := (scan_post source).

Implicit Types (s : Scanner) (c : ascii) (i j k : nat).

(** *** Reading the buffer *)

Lemma char_at_lookup i c : source !! i = Some c -> char_at i = c.
Proof. unfold Scan.char_at. by intros ->. Qed.

Lemma char_at_ge i : (L <= i)%nat -> char_at i = NUL.
Proof. intros H. unfold Scan.char_at. by rewrite lookup_ge_None_2. Qed.

Lemma char_at_lt i : char_at i <> NUL -> (i < L)%nat.
Proof.
  intros H. destruct (decide (i < L)%nat); [done|].
  destruct H. apply char_at_ge. lia.
Qed.

Lemma lookup_char_at i : (i < L)%nat -> source !! i = Some (char_at i).
Proof.
  intros H. destruct (lookup_lt_is_Some_2 source i H) as [c Hc].
  by rewrite (char_at_lookup _ _ Hc).
Qed.

Lemma isAtEnd_false s : isAtEnd s = false -> (current s < L)%nat.
Proof.
  unfold Scan.isAtEnd. intros H. apply char_at_lt.
  intros E. rewrite E in H. done.
Qed.

Lemma isAtEnd_true s : isAtEnd s = true <-> peek s = NUL.
Proof. unfold Scan.isAtEnd, Scan.peek. apply Ascii.eqb_eq. Qed.

(** *** Slices of the buffer *)

Lemma slice_nil i : slice i i = [].
Proof. unfold Scan.slice. by rewrite Nat.sub_diag. Qed.

Lemma slice_app i j k :
  (i <= j <= k)%nat -> slice i k = slice i j ++ slice j k.
Proof.
  intros H. unfold Scan.slice.
  replace (drop j source) with (drop (j - i) (drop i source))
    by (rewrite drop_drop; f_equal; lia).
  rewrite take_take_drop. f_equal. lia.
Qed.

Lemma slice_one i : (i < L)%nat -> slice i (S i) = [char_at i].
Proof.
  intros H. unfold Scan.slice.
  rewrite (drop_S _ _ _ (lookup_char_at i H)).
  by replace (S i - i)%nat with 1%nat by lia.
Qed.



(** *** What a loop consumes *)


Lemma consumed_refl P s : consumed P s s.
Proof.
  unfold consumed. rewrite slice_nil. simpl. repeat split; try lia.
Qed.

Lemma consumed_trans P s1 s2 s3 :
  consumed P s1 s2 -> consumed P s2 s3 -> consumed P s1 s3.
Proof.
  intros (Hs & Hle & Hmax & Hl & HP) (Hs' & Hle' & Hmax' & Hl' & HP').
  unfold consumed.
  rewrite (slice_app (current s1) (current s2) (current s3)) by lia.
  rewrite line_after_app. repeat split; try lia; try congruence.
  intros i Hi. destruct (decide (i < current s2)%nat).
  - apply HP. lia.
  - apply HP'. lia.
Qed.

Lemma consumed_weaken (P Q : ascii -> bool) s s' :
  (forall c, P c = true -> Q c = true) -> consumed P s s' -> consumed Q s s'.
Proof.
  intros HPQ (Hs & Hle & Hmax & Hl & HP). unfold consumed.
  repeat split; try done. intros i Hi. by apply HPQ, HP.
Qed.

(** One character consumed, the line advanced when it is a newline. *)
Lemma consumed_step (P : ascii -> bool) s :
  P (peek s) = true -> peek s <> NUL ->
  consumed P s
    (mkScanner (start s) (S (current s)) (line_after (line s) [peek s])).
Proof.
  intros HP HN.
  assert (current s < L)%nat as Hlt by by apply char_at_lt.
  unfold consumed. simpl. rewrite slice_one by done.
  repeat split; try lia; try done.
  intros i Hi. by replace i with (current s) by lia.
Qed.

(** The loops of the scanner: the condition tests the next character, the
    body consumes it. *)
Lemma while_run (P : ascii -> bool) cond body :
  P NUL = false ->
  (forall s, cond s = P (peek s)) ->
  (forall s, P (peek s) = true ->
     body s = mkScanner (start s) (S (current s)) (line_after (line s) [peek s])) ->
  forall fuel s, (L - current s < fuel)%nat ->
  exists s', while fuel cond body s = Some s' /\
    consumed P s s' /\ P (peek s') = false.
Proof.
  intros HN Hcond Hbody. induction fuel as [|fuel IH]; intros s Hf; [lia|].
  simpl. rewrite Hcond. destruct (P (peek s)) eqn:HP.
  - assert (peek s <> NUL) as Hnz by congruence.
    pose proof (consumed_step P s HP Hnz) as Hstep.
    rewrite (Hbody s HP).
    assert (current s < L)%nat as Hlt by by apply char_at_lt.
    destruct (IH (mkScanner (start s) (S (current s))
                    (line_after (line s) [peek s]))) as (s' & Hw & Hc & Hex).
    { simpl. lia. }
    exists s'. split; [done|]. split; [|done].
    by apply (consumed_trans P _ _ _ Hstep).
  - exists s. split; [done|]. split; [apply consumed_refl|done].
Qed.

Lemma nl_count_run n : forall i,
  (forall k, (i <= k < i + n)%nat -> char_at k <> LF) ->
  nl_count (take n (drop i source)) = 0.
Proof.
  induction n as [|n IH]; intros i Hk; [done|].
  destruct (source !! i) as [c|] eqn:Ec.
  - rewrite (drop_S _ _ _ Ec). simpl. rewrite IH by (intros k ?; apply Hk; lia).
    assert (c <> LF) as Hc.
    { rewrite <- (char_at_lookup _ _ Ec). apply Hk. lia. }
    apply Ascii.eqb_neq in Hc. by rewrite Hc.
  - apply lookup_ge_None_1 in Ec. by rewrite drop_ge.
Qed.

Lemma consumed_no_newline (P : ascii -> bool) s s' :
  P LF = false -> consumed P s s' ->
  nl_count (slice (current s) (current s')) = 0 /\ line s' = line s.
Proof.
  intros HP (_ & Hle & _ & Hl & Hall).
  assert (nl_count (slice (current s) (current s')) = 0) as H0.
  { apply nl_count_run. intros k Hk E.
    specialize (Hall k). rewrite E in Hall. rewrite Hall in HP; [done|lia]. }
  split; [done|]. by rewrite Hl, line_after_no_newline.
Qed.

(** *** The four loops *)


Lemma plain_turn (P : ascii -> bool) s :
  P LF = false -> P (peek s) = true ->
  (advance s).2 =
  mkScanner (start s) (S (current s)) (line_after (line s) [peek s]).
Proof.
  intros HLF HP. simpl.
  destruct (Ascii.eqb_spec (peek s) LF) as [E|_]; [congruence|done].
Qed.

Lemma comment_loop s :
  exists s', while (fuel_for source s) (in_comment source)
               (fun s => (advance s).2) s = Some s' /\
    consumed not_eol s s' /\ not_eol (peek s') = false.
Proof.
  apply (while_run not_eol); [done|done| |unfold fuel_for; lia].
  intros s0. by apply plain_turn.
Qed.

Lemma alnum_loop s :
  exists s', while (fuel_for source s) (is_alnum source)
               (fun s => (advance s).2) s = Some s' /\
    consumed alnum s s' /\ alnum (peek s') = false.
Proof.
  apply (while_run alnum); [done|done| |unfold fuel_for; lia].
  intros s0. by apply plain_turn.
Qed.

Lemma digit_loop s :
  exists s', while (fuel_for source s) (is_digit source)
               (fun s => (advance s).2) s = Some s' /\
    consumed isDigit s s' /\ isDigit (peek s') = false.
Proof.
  apply (while_run isDigit); [done|done| |unfold fuel_for; lia].
  intros s0. by apply plain_turn.
Qed.

Lemma string_loop s :
  exists s', while (fuel_for source s) (in_string source)
               (string_turn source) s = Some s' /\
    consumed not_quote s s' /\ not_quote (peek s') = false.
Proof.
  apply (while_run not_quote); [done|done| |unfold fuel_for; lia].
  intros s0 _. unfold string_turn. simpl.
  by destruct (peek s0 =? LF)%char.
Qed.

(** *** [skipWhitespace] *)

Lemma skipWhitespace_loop_spec fuel : forall s,
  (L - current s < fuel)%nat ->
  exists s', skipWhitespace_loop source fuel s = Some s' /\
    consumed any s s' /\ peek s' <> LF.
Proof.
  induction fuel as [|fuel IH]; intros s Hf; [lia|].
  cbn [skipWhitespace_loop].
  destruct ((peek s =? " ") || (peek s =? CR) || (peek s =? TAB))%char eqn:Esp.
  { assert (peek s <> NUL /\ peek s <> LF) as [Hnz Hnl].
    { split; intros E; rewrite E in Esp; done. }
    assert (current s < L)%nat as Hlt by by apply char_at_lt.
    destruct (IH (mkScanner (start s) (S (current s)) (line s)))
      as (s' & Hs' & Hc & Hp); [simpl; lia|].
    exists s'. split; [done|]. split; [|done].
    apply (consumed_trans any _ _ _ (consumed_step any s eq_refl Hnz)).
    by rewrite (line_after_one _ _ Hnl). }
  destruct (Ascii.eqb_spec (peek s) LF) as [Enl|Hnl].
  { assert (peek s <> NUL) as Hnz by (by rewrite Enl).
    assert (current s < L)%nat as Hlt by by apply char_at_lt.
    destruct (IH (mkScanner (start s) (S (current s)) (to_int (line s + 1))))
      as (s' & Hs' & Hc & Hp); [simpl; lia|].
    exists s'. split; [done|]. split; [|done].
    apply (consumed_trans any _ _ _ (consumed_step any s eq_refl Hnz)).
    simpl. by rewrite Enl. }
  destruct (Ascii.eqb_spec (peek s) "/") as [Esl|_];
    [|exists s; split; [done|]; split; [apply consumed_refl|done]].
  destruct (peekNext source s =? "/")%char;
    [|exists s; split; [done|]; split; [apply consumed_refl|done]].
  destruct (comment_loop s) as (s1 & Hw & Hc1 & Hex). rewrite Hw.
  assert (current s < current s1)%nat as Hlt.
  { destruct Hc1 as (_ & Hle & _).
    destruct (decide (current s = current s1)) as [E|]; [|lia].
    unfold Scan.peek in *. rewrite <- E, Esl in Hex. done. }
  assert (current s1 <= L)%nat as Hle1.
  { destruct Hc1 as (_ & _ & Hmax & _). lia. }
  destruct (IH s1) as (s' & Hs' & Hc & Hp); [lia|].
  exists s'. split; [done|]. split; [|done].
  apply (consumed_trans any _ s1); [|done].
  by apply (consumed_weaken not_eol).
Qed.

Lemma skipWhitespace_spec s :
  exists s', skipWhitespace source s = Some s' /\
    consumed any s s' /\ peek s' <> LF.
Proof. apply skipWhitespace_loop_spec. unfold fuel_for. lia. Qed.

(** A character that starts a token stops the skipping at once. *)
Lemma skipWhitespace_stops s :
  ((peek s =? " ") || (peek s =? CR) || (peek s =? TAB) ||
   (peek s =? LF) || (peek s =? "/"))%char = false ->
  skipWhitespace source s = Some s.
Proof.
  intros H. unfold skipWhitespace, fuel_for. simpl.
  apply orb_false_iff in H as [H ->]. apply orb_false_iff in H as [-> ->].
  done.
Qed.

(** Where the skipping stops, the next character is no whitespace and no
    comment starts. *)
Lemma skipWhitespace_loop_stop fuel : forall s s',
  skipWhitespace_loop source fuel s = Some s' ->
  is_space (peek s') = false /\ at_comment source s' = false.
Proof.
  induction fuel as [|fuel IH]; intros s s'; [done|].
  cbn [skipWhitespace_loop].
  destruct ((peek s =? " ") || (peek s =? CR) || (peek s =? TAB))%char eqn:Esp;
    [by apply IH|].
  destruct (peek s =? LF)%char eqn:Enl; [by apply IH|].
  assert (is_space (peek s) = false) as Hsp.
  { unfold is_space. by rewrite Esp, Enl. }
  destruct (peek s =? "/")%char eqn:Esl.
  - destruct (peekNext source s =? "/")%char eqn:Enext.
    + destruct (while _ _ _ s) as [s1|]; [by apply IH|done].
    + intros [= <-]. split; [done|]. unfold at_comment. by rewrite Enext, andb_false_r.
  - intros [= <-]. split; [done|]. unfold at_comment. by rewrite Esl.
Qed.

Lemma skipWhitespace_here s :
  is_space (peek s) = false -> at_comment source s = false ->
  skipWhitespace source s = Some s.
Proof.
  unfold is_space, at_comment, skipWhitespace, fuel_for.
  intros Hsp Hcm. cbn [skipWhitespace_loop].
  apply orb_false_iff in Hsp as [-> ->].
  destruct (peek s =? "/")%char; [|done]. simpl in Hcm. by rewrite Hcm.
Qed.

(** A call of [scanToken] does what it does from where the skipping of
    whitespace and comments stops. *)
Lemma scanToken_after_skip s s0 :
  skipWhitespace source s = Some s0 ->
  scanToken source s = scanToken source s0.
Proof.
  intros Hskip.
  destruct (skipWhitespace_loop_stop _ _ _ Hskip) as [Hsp Hcm].
  unfold scanToken. by rewrite Hskip, (skipWhitespace_here s0 Hsp Hcm).
Qed.

(** *** The token made once the first character is consumed *)


Lemma nl_count_one c : c <> LF -> nl_count [c] = 0.
Proof. intros H. simpl. apply Ascii.eqb_neq in H. by rewrite H. Qed.

Lemma simple_post o l type :
  (o < L)%nat -> char_at o <> LF -> type <> TOKEN_EOF ->
  token_post o l (makeToken type (mkScanner o (S o) l))
    (mkScanner o (S o) l).
Proof.
  intros Hlt Hnl Hty. unfold token_post. simpl.
  rewrite slice_one, nl_count_one, line_after_one by done.
  repeat split; try done; lia.
Qed.

Lemma error_post o l message :
  (o < L)%nat -> char_at o <> LF ->
  token_post o l (errorToken message (mkScanner o (S o) l))
    (mkScanner o (S o) l).
Proof.
  intros Hlt Hnl. unfold token_post. simpl.
  rewrite slice_one, nl_count_one, line_after_one by done.
  repeat split; try done; lia.
Qed.

Lemma one_or_two_post o l second two one :
  (o < L)%nat -> char_at o <> LF -> second <> LF ->
  two <> TOKEN_EOF -> one <> TOKEN_EOF ->
  exists tok s',
    one_or_two source second two one (mkScanner o (S o) l) = Some (tok, s') /\
    token_post o l tok s'.
Proof.
  intros Hlt Hnl Hsec Htwo Hone. unfold one_or_two, match_.
  destruct (isAtEnd _) eqn:Eend;
    [eexists _, _; split; [done|]; by apply simple_post|].
  apply isAtEnd_false in Eend. simpl in Eend.
  cbn [current].
  destruct (Ascii.eqb_spec (char_at (S o)) second) as [E|_]; cbn [negb];
    [|eexists _, _; split; [done|]; by apply simple_post].
  eexists _, _. split; [done|]. unfold token_post. simpl.
  rewrite (slice_app o (S o) (S (S o))), !slice_one by lia.
  rewrite nl_count_app, line_after_app.
  rewrite E, !nl_count_one, !line_after_one by done.
  repeat split; try done; lia.
Qed.

Lemma checkKeyword_kind s a n rest type :
  checkKeyword source a n rest type s = type \/
  checkKeyword source a n rest type s = TOKEN_IDENTIFIER.
Proof. unfold checkKeyword. destruct (_ && _); auto. Qed.

Lemma identifierType_kind s :
  identifierType source s <> TOKEN_EOF /\
  identifierType source s <> TOKEN_ERROR.
Proof.
  unfold identifierType.
  repeat match goal with
  | |- context [if ?b then _ else _] => destruct b
  | |- context [checkKeyword source ?a ?n ?r ?t s] =>
      destruct (checkKeyword_kind s a n r t) as [-> | ->]
  end; done.
Qed.

Lemma identifier_post o l :
  (o < L)%nat -> char_at o <> LF ->
  exists tok s',
    identifier source (mkScanner o (S o) l) = Some (tok, s') /\
    token_post o l tok s'.
Proof.
  intros Hlt Hnl. unfold identifier.
  destruct (alnum_loop (mkScanner o (S o) l)) as (s' & -> & Hc & _).
  destruct (consumed_no_newline alnum _ _ eq_refl Hc) as [H0 Hline].
  destruct Hc as (Hs & Hle & Hmax & _). simpl in *.
  destruct (identifierType_kind s') as [Heof Herr].
  eexists _, _. split; [done|]. unfold token_post. simpl.
  rewrite (slice_app o (S o) (current s')), slice_one by lia.
  rewrite nl_count_app, line_after_app.
  rewrite nl_count_one, H0, line_after_one, (line_after_no_newline _ _ H0) by done.
  repeat split; try done; lia.
Qed.

Lemma number_post o l :
  (o < L)%nat -> char_at o <> LF ->
  exists tok s',
    number source (mkScanner o (S o) l) = Some (tok, s') /\
    token_post o l tok s'.
Proof.
  intros Hlt Hnl. unfold number.
  destruct (digit_loop (mkScanner o (S o) l)) as (s1 & -> & Hc & _).
  destruct (consumed_no_newline isDigit _ _ eq_refl Hc) as [H0 Hline].
  destruct Hc as (Hs & Hle & Hmax & _).
  simpl in Hs, Hle, Hmax, H0, Hline.
  assert (nl_count (slice o (current s1)) = 0) as H01.
  { rewrite (slice_app o (S o) (current s1)), slice_one, nl_count_app by lia.
    rewrite nl_count_one, H0 by done. done. }
  destruct ((peek s1 =? ".")%char && isDigit (peekNext source s1)) eqn:Edot.
  - apply andb_true_iff in Edot as [Edot _].
    apply Ascii.eqb_eq in Edot.
    assert (peek s1 <> NUL) as Hnz by (by rewrite Edot).
    assert (current s1 < L)%nat as Hlt1 by by apply char_at_lt.
    destruct (digit_loop (advance s1).2) as (s3 & -> & Hc3 & _).
    destruct (consumed_no_newline isDigit _ _ eq_refl Hc3) as [H3 Hline3].
    destruct Hc3 as (Hs3 & Hle3 & Hmax3 & _). simpl in *.
    assert (nl_count (slice o (current s3)) = 0) as H03.
    { rewrite (slice_app o (current s1) (current s3)) by lia.
      rewrite (slice_app (current s1) (S (current s1)) (current s3)) by lia.
      rewrite slice_one, !nl_count_app by done.
      unfold Scan.peek in Edot. by rewrite Edot, H01, H3, nl_count_one. }
    eexists _, _. split; [done|]. unfold token_post. simpl.
    rewrite H03, (line_after_no_newline _ _ H03).
    repeat split; try done; try lia; congruence.
  - eexists _, _. split; [done|]. unfold token_post. simpl.
    rewrite H01, (line_after_no_newline _ _ H01).
    repeat split; try done; try lia; congruence.
Qed.

Lemma not_quote_false c : not_quote c = false -> c = DQUOTE \/ c = NUL.
Proof.
  unfold not_quote.
  destruct (Ascii.eqb_spec c DQUOTE); [auto|].
  destruct (Ascii.eqb_spec c NUL); [auto|done].
Qed.

Lemma string_post o l :
  (o < L)%nat -> char_at o = DQUOTE ->
  exists tok s',
    string source (mkScanner o (S o) l) = Some (tok, s') /\
    token_post o l tok s'.
Proof.
  intros Hlt Hq. unfold string.
  destruct (string_loop (mkScanner o (S o) l)) as (s1 & -> & Hc & Hex).
  destruct Hc as (Hs & Hle & Hmax & Hline & _). simpl in *.
  assert (line_after l (slice o (current s1)) =
          line_after l (slice (S o) (current s1))) as H01.
  { rewrite (slice_app o (S o) (current s1)), slice_one, line_after_app by lia.
    rewrite Hq. done. }
  destruct (isAtEnd s1) eqn:Eend.
  - eexists _, _. split; [done|]. unfold token_post. simpl.
    repeat split; try done; [lia|congruence].
  - pose proof (isAtEnd_false _ Eend) as Hlt1.
    assert (peek s1 = DQUOTE) as Hq1.
    { destruct (not_quote_false _ Hex) as [E|E]; [done|].
      apply isAtEnd_true in E. congruence. }
    eexists _, _. split; [done|]. unfold token_post. simpl.
    rewrite (slice_app o (current s1) (S (current s1))) by lia.
    rewrite slice_one, line_after_app by done.
    unfold Scan.peek in Hq1. rewrite Hq1, H01. simpl.
    repeat split; try done; lia.
Qed.

(** *** [scanToken] *)


Lemma token_post_scan s s0 tok s' :
  consumed any s s0 ->
  token_post (current s0) (line s0) tok s' ->
  scan_post s tok s'.
Proof.
  intros (_ & Hle & Hmax & Hline & _) (Hs & Hcur & Hl & Htl & Heof & Hmk & Hnl).
  unfold scan_post. rewrite Hs.
  rewrite (slice_app (current s) (current s0) (current s')), line_after_app by lia.
  repeat split; try done; try lia; congruence.
Qed.

Local Ltac token_case :=
  first
    [ eexists _, _; split; [reflexivity|]; by apply simple_post
    | by apply one_or_two_post ].

Lemma scanToken_spec s :
  exists tok s', scanToken source s = Some (tok, s') /\ scan_post s tok s'.
Proof.
  destruct (skipWhitespace_spec s) as (s0 & Hskip & Hc & Hnl).
  unfold scanToken. rewrite Hskip.
  destruct (isAtEnd (mkScanner (current s0) (current s0) (line s0))) eqn:Eend.
  - eexists _, _. split; [done|].
    destruct Hc as (_ & Hle & Hmax & Hline & _).
    unfold scan_post. simpl. rewrite slice_nil.
    repeat split; try done; try lia.
    intros Hs. destruct (decide (current s = current s0)) as [E|]; [|lia].
    unfold Scan.isAtEnd in *. simpl in Eend. rewrite E in Hs. congruence.
  - pose proof (isAtEnd_false _ Eend) as Hlt. simpl in Hlt.
    unfold Scan.peek in Hnl.
    cbn [Scan.advance current start line].
    set (c := char_at (current s0)) in *.
    match goal with
    | |- exists tok s', ?e = Some (tok, s') /\ _ =>
        enough (exists tok s', e = Some (tok, s') /\
                  token_post (current s0) (line s0) tok s')
          as (tok & s' & Heq & Hp)
    end.
    { exists tok, s'. split; [exact Heq|]. by apply (token_post_scan s s0). }
    destruct (isAlpha c); [by apply identifier_post|].
    destruct (isDigit c); [by apply number_post|].
    repeat match goal with
    | |- context [if (c =? ?y)%char then _ else _] =>
        destruct (Ascii.eqb_spec c y); [token_case|]
    end.
    destruct (Ascii.eqb_spec c DQUOTE); [by apply string_post|].
    eexists _, _. split; [done|]. by apply error_post.
Qed.

(** *** The states a scan goes through *)



(** The span of a token is no longer than the buffer. *)
Lemma span_le_length s tok s' :
  scan_post s tok s' ->
  0 <= Z.of_nat (current s') - Z.of_nat (start s') <= Z.of_nat L.
Proof. intros (Hs & Hmax & _). lia. Qed.

(** *** The caller's loop *)


(** *** Where a loop stops *)

Lemma char_at_middle pre mid post k :
  source = pre ++ mid ++ post -> (k < length mid)%nat ->
  mid !! k = Some (char_at (length pre + k)).
Proof.
  intros Hsrc Hk. unfold Scan.char_at. rewrite Hsrc.
  rewrite lookup_app_r by lia.
  replace (length pre + k - length pre)%nat with k by lia.
  rewrite lookup_app_l by done.
  by destruct (lookup_lt_is_Some_2 mid k Hk) as [c ->].
Qed.

Lemma char_at_after pre mid post :
  source = pre ++ mid ++ post ->
  char_at (length pre + length mid) = hd NUL post.
Proof.
  intros Hsrc. unfold Scan.char_at. rewrite Hsrc.
  rewrite lookup_app_r by lia.
  replace (length pre + length mid - length pre)%nat with (length mid) by lia.
  rewrite lookup_app_r by lia. rewrite Nat.sub_diag. by destruct post.
Qed.

Lemma consumed_exact (P : ascii -> bool) pre mid post s s' :
  source = pre ++ mid ++ post ->
  current s = length pre ->
  Forall (fun c => P c = true) mid ->
  P (hd NUL post) = false ->
  consumed P s s' -> P (peek s') = false ->
  current s' = (length pre + length mid)%nat.
Proof.
  intros Hsrc Hcur Hmid Hpost (_ & Hle & _ & _ & Hall) Hex.
  destruct (Nat.lt_trichotomy (current s') (length pre + length mid))
    as [Hlt|[E|Hgt]]; [|done|].
  - pose proof (char_at_middle pre mid post (current s' - length pre) Hsrc) as Hk.
    replace (length pre + (current s' - length pre))%nat with (current s') in Hk by lia.
    rewrite Forall_lookup in Hmid.
    specialize (Hmid _ _ (Hk ltac:(lia))). unfold Scan.peek in Hex. congruence.
  - specialize (Hall (length pre + length mid)%nat).
    rewrite (char_at_after pre mid post Hsrc) in Hall.
    rewrite Hall in Hpost; [done|lia].
Qed.

(** *** Keywords *)

(** [checkKeyword] on a lexeme: the part from [a] on is [rest]. *)
Lemma checkKeyword_spec pre lexeme post s a n rest type :
  source = pre ++ lexeme ++ post ->
  start s = length pre ->
  current s = (length pre + length lexeme)%nat ->
  (a <= length lexeme)%nat ->
  length (list_ascii_of_string rest) = n ->
  checkKeyword source a n rest type s =
  if lexeme_eqb (drop a lexeme) (list_ascii_of_string rest) then type
  else TOKEN_IDENTIFIER.
Proof.
  intros Hsrc Hstart Hcur Ha Hn. unfold checkKeyword, memcmp_eq.
  set (kw := list_ascii_of_string rest) in *.
  rewrite Hstart, Hcur, Hsrc, drop_app_add, drop_app_le by lia.
  rewrite (take_ge kw) by lia.
  destruct (lexeme_eqb (drop a lexeme) kw) eqn:E.
  - apply lexeme_eqb_eq in E.
    assert (length (drop a lexeme) = n) as Hlen by (by rewrite E).
    rewrite length_drop in Hlen.
    rewrite E, take_app_length' by done.
    rewrite bool_decide_eq_true_2 by done.
    by replace (_ =? _) with true by (symmetry; apply Z.eqb_eq; lia).
  - destruct (Z.eqb_spec (Z.of_nat (length pre + length lexeme) - Z.of_nat (length pre))
                (Z.of_nat (a + n))) as [Hz|_]; [|done].
    rewrite take_app_length' by (rewrite length_drop; lia).
    rewrite bool_decide_eq_false_2; [done|].
    intros E'. apply lexeme_eqb_eq in E'. congruence.
Qed.

Local Ltac keyword_default a :=
  unfold keywordKind, keywords; cbn;
  repeat match goal with
  | H : (a =? _)%char = false |- _ => rewrite H; clear H
  end;
  reflexivity.

Local Ltac keyword_switch a inner :=
  repeat match goal with
  | |- context [if (a =? ?y)%char then _ else _] =>
      let E := fresh "E" in
      destruct (a =? y)%char eqn:E;
      [ apply Ascii.eqb_eq in E; subst a; inner | ]
  end.

(** The decision tree of [identifierType] against the keyword table. *)
Lemma identifierType_keywordKind pre lexeme post s :
  source = pre ++ lexeme ++ post ->
  start s = length pre ->
  current s = (length pre + length lexeme)%nat ->
  lexeme <> [] ->
  identifierType source s = keywordKind lexeme.
Proof.
  intros Hsrc Hstart Hcur Hne.
  destruct lexeme as [|a0 rest0]; [done|]. clear Hne.
  pose proof (fun a n r t =>
    checkKeyword_spec pre _ post s a n r t Hsrc Hstart Hcur) as Hck.
  assert (char_at (start s) = a0) as H0.
  { pose proof (char_at_middle pre (a0 :: rest0) post 0 Hsrc) as H.
    rewrite Nat.add_0_r, <- Hstart in H.
    specialize (H ltac:(simpl; lia)). by injection H. }
  unfold identifierType. rewrite H0.
  destruct rest0 as [|a1 rest1].
  - replace (1 <? Z.of_nat (current s) - Z.of_nat (start s)) with false
      by (symmetry; apply Z.ltb_ge; rewrite Hstart, Hcur; simpl; lia).
    cbv iota.
    rewrite !Hck by first [reflexivity | simpl; lia].
    clear H0 Hck.
    keyword_switch a0 ltac:(reflexivity).
    keyword_default a0.
  - replace (1 <? Z.of_nat (current s) - Z.of_nat (start s)) with true
      by (symmetry; apply Z.ltb_lt; rewrite Hstart, Hcur; simpl; lia).
    cbv iota.
    assert (char_at (start s + 1) = a1) as H1.
    { pose proof (char_at_middle pre (a0 :: a1 :: rest1) post 1 Hsrc) as H.
      rewrite <- Hstart in H.
      specialize (H ltac:(simpl; lia)). by injection H. }
    rewrite H1.
    rewrite !Hck by first [reflexivity | simpl; lia].
    clear H0 H1 Hck.
    keyword_switch a0
      ltac:(keyword_switch a1 ltac:(reflexivity);
            first [reflexivity | keyword_default a1]).
    keyword_default a0.
Qed.

(** *** The branch taken on the first character *)


Lemma scanToken_at_alpha s :
  isAlpha (peek s) = true ->
  scanToken source s =
  identifier source (mkScanner (current s) (S (current s)) (line s)).
Proof.
  intros Ha. unfold scanToken.
  rewrite skipWhitespace_stops.
  - unfold Scan.isAtEnd, Scan.advance. cbn [current start line].
    unfold Scan.peek in Ha. rewrite Ha.
    destruct (Ascii.eqb_spec (char_at (current s)) NUL) as [E|_]; [|done].
    by rewrite E in Ha.
  - repeat match goal with
    | |- context [(peek s =? ?y)%char] =>
        destruct (Ascii.eqb_spec (peek s) y) as [E|_];
        [by rewrite E in Ha|]
    end.
    done.
Qed.

(** *** A string literal, scanned *)


(** *** An identifier, scanned *)

Lemma identifier_scan pre c cs rest s :
  source = pre ++ (c :: cs) ++ rest ->
  current s = length pre ->
  isAlpha c = true ->
  Forall (fun x => alnum x = true) cs ->
  alnum (hd NUL rest) = false ->
  scanToken source s =
  Some (Token.mk (keywordKind (c :: cs)) (InSource (length pre))
          (to_int (Z.of_nat (length (c :: cs)))) (line s),
        mkScanner (length pre) (length pre + length (c :: cs)) (line s)).
Proof.
  intros Hsrc Hcur Hc Hcs Hrest.
  assert (peek s = c) as Hpeek.
  { pose proof (char_at_middle pre (c :: cs) rest 0 Hsrc) as H.
    rewrite Nat.add_0_r, <- Hcur in H.
    specialize (H ltac:(simpl; lia)). by injection H. }
  rewrite scanToken_at_alpha by (by rewrite Hpeek). unfold identifier.
  destruct (alnum_loop (mkScanner (current s) (S (current s)) (line s)))
    as (s1 & -> & Hcons & Hex).
  assert (source = (pre ++ [c]) ++ cs ++ rest) as Hsrc'
    by (by rewrite <- app_assoc).
  assert (length (pre ++ [c]) = length pre + 1)%nat as Hlen
    by (rewrite length_app; simpl; lia).
  assert (current s1 = (length pre + 1 + length cs)%nat) as Hcur1.
  { rewrite <- Hlen.
    apply (consumed_exact alnum _ cs rest
             (mkScanner (current s) (S (current s)) (line s)) s1 Hsrc');
      try done.
    simpl. lia. }
  destruct (consumed_no_newline alnum _ _ eq_refl Hcons) as [_ Hline1].
  destruct Hcons as (Hstart1 & _). simpl in Hstart1, Hline1.
  rewrite (identifierType_keywordKind pre (c :: cs) rest s1 Hsrc)
    by (simpl; first [done | lia]).
  destruct s1 as [st1 cur1 l1]. unfold makeToken. simpl in *. subst.
  rewrite Hcur.
  replace (Z.of_nat (length pre + 1 + length cs) - Z.of_nat (length pre))
    with (Z.of_nat (S (length cs))) by lia.
  by replace (length pre + 1 + length cs)%nat
    with (length pre + S (length cs))%nat by lia.
Qed.

Lemma keywordKind_entry kw type :
  In (kw, type) keywords -> keywordKind (list_ascii_of_string kw) = type.
Proof.
  unfold keywords. simpl.
  intros H. repeat destruct H as [[= <- <-]|H]; try reflexivity. done.
Qed.

Lemma lookup_keyword_none lexeme table :
  (forall kw type, In (kw, type) table -> lexeme <> list_ascii_of_string kw) ->
  lookup_keyword lexeme table = TOKEN_IDENTIFIER.
Proof.
  induction table as [|[kw type] table IH]; intros H; [done|]. simpl.
  destruct (lexeme_eqb lexeme (list_ascii_of_string kw)) eqn:E.
  - apply lexeme_eqb_eq in E. exfalso. apply (H kw type); [by left|done].
  - apply IH. intros kw' type' Hin. apply (H kw' type'). by right.
Qed.

(** *** C7: keywords and identifiers *)

(** C7: a call of [scanToken] skips whitespace and comments up to some
    state [s0]; when a lexeme begins there that starts with a letter or an
    underscore and goes on with letters, digits and underscores, up to a
    character that is none of them, the call returns one token for it,
    pinned at the first character of the lexeme, on the line of [s0].  The
    kind of the token is the kind of the keyword table entry that the whole
    lexeme equals, in length and content, and [TOKEN_IDENTIFIER] when it
    equals no entry (a proper prefix of a keyword, a keyword with more
    characters after it, or any other variant).  The length of the token is
    the number of characters of the lexeme when that number fits an
    [int]. *)
Theorem keyword_exact_match pre c cs rest s s0 :
  source = pre ++ (c :: cs) ++ rest ->
  skipWhitespace source s = Some s0 ->
  current s0 = length pre ->
  isAlpha c = true ->
  Forall (fun x => alnum x = true) cs ->
  alnum (hd NUL rest) = false ->
  exists type len,
    scanToken source s =
    Some (Token.mk type (InSource (length pre)) len (line s0),
          mkScanner (length pre) (length pre + length (c :: cs)) (line s0)) /\
    (Z.of_nat (length (c :: cs)) <= INT_MAX ->
       len = Z.of_nat (length (c :: cs))) /\
    type = keywordKind (c :: cs) /\
    (forall kw kind, In (kw, kind) keywords ->
       c :: cs = list_ascii_of_string kw -> type = kind) /\
    ((forall kw kind, In (kw, kind) keywords ->
        c :: cs <> list_ascii_of_string kw) -> type = TOKEN_IDENTIFIER).
Proof.
  intros Hsrc Hskip Hcur Hc Hcs Hrest.
  exists (keywordKind (c :: cs)), (to_int (Z.of_nat (length (c :: cs)))).
  split; [|split; [|split; [done|split]]].
  - rewrite (scanToken_after_skip s s0 Hskip).
    by apply (identifier_scan pre c cs rest).
  - intros Hsize. apply to_int_small. unfold INT_MIN. lia.
  - intros kw kind Hin ->. by apply keywordKind_entry.
  - apply lookup_keyword_none.
Qed.

(** *** C8: the line of a token *)


(** *** C9: string literals *)


(** *** C10: progress, termination and bounds *)


End Source.

(** The examples of the specification. *)
Example scan_for :
  scanToken (list_ascii_of_string "for") initScanner =
  Some (Token.mk TOKEN_FOR (InSource 0) 3 1, mkScanner 0 3 1).
Proof. reflexivity. Qed.

Example scan_forest :
  scanToken (list_ascii_of_string "forest") initScanner =
  Some (Token.mk TOKEN_IDENTIFIER (InSource 0) 6 1, mkScanner 0 6 1).
Proof. reflexivity. Qed.

Example scan_fo :
  scanToken (list_ascii_of_string "fo") initScanner =
  Some (Token.mk TOKEN_IDENTIFIER (InSource 0) 2 1, mkScanner 0 2 1).
Proof. reflexivity. Qed.

(** The call starts on the line break before [for(]: the token is pinned
    at the letter [f], offset 1, on line 2. *)
Lemma keyword_exact_match_witness :
  exists type len,
    scanToken (LF :: list_ascii_of_string "for(") initScanner =
    Some (Token.mk type (InSource 1) len 2, mkScanner 1 4 2) /\
    (3 <= INT_MAX -> len = 3) /\
    type = keywordKind (list_ascii_of_string "for") /\
    (forall kw kind, In (kw, kind) keywords ->
       list_ascii_of_string "for" = list_ascii_of_string kw -> type = kind) /\
    ((forall kw kind, In (kw, kind) keywords ->
        list_ascii_of_string "for" <> list_ascii_of_string kw) ->
     type = TOKEN_IDENTIFIER).
Proof.
  apply (keyword_exact_match (LF :: list_ascii_of_string "for(") [LF]
           "f"%char (list_ascii_of_string "or") (list_ascii_of_string "(")
           initScanner (mkScanner 0 1 2) eq_refl eq_refl eq_refl eq_refl).
  - repeat constructor.
  - reflexivity.
Defined.





End ScanFacts.

(** ** Further properties of vm.c *)

Module VmMore.
Import Vm VmFacts.

Section Machine.

Context {Value : Type}.
Variables OP_CONSTANT OP_RETURN : byte.
Variable DEBUG_TRACE_EXECUTION : bool.

Local Abbreviation turn := (turn OP_CONSTANT OP_RETURN DEBUG_TRACE_EXECUTION).
Local Abbreviation run_fuel := (run_fuel OP_CONSTANT OP_RETURN DEBUG_TRACE_EXECUTION).
Local Abbreviation run := (run OP_CONSTANT OP_RETURN DEBUG_TRACE_EXECUTION).
Local Abbreviation interpret := (interpret OP_CONSTANT OP_RETURN DEBUG_TRACE_EXECUTION).
Local Abbreviation VM := (@VM Value).

Implicit Types (vm : VM) (b : byte) (v : Value).

(** *** [push] and [pop] together *)

Lemma pushes_snoc vs v vm : pushes (vs ++ [v]) vm = push v (pushes vs vm).
Proof. unfold pushes. by rewrite fold_left_app. Qed.

(** X1: every push stores in slot 0, so after a sequence of pushes the
    array differs from the one before in slot 0 only, which holds the last
    value pushed, while the top marker has advanced by the number of
    pushes. *)
Theorem pushes_overwrite_slot_zero vs v vm :
  last vs = Some v ->
  stack (pushes vs vm) = <[0%nat := v]> (stack vm) /\
  stackTop (pushes vs vm) = stackTop vm + Z.of_nat (length vs) /\
  chunk (pushes vs vm) = chunk vm /\ ip (pushes vs vm) = ip vm.
Proof.
  revert v. induction vs as [|w vs IH] using rev_ind; intros v Hlast; [done|].
  rewrite last_snoc in Hlast. injection Hlast as ->.
  rewrite pushes_snoc, length_app. simpl.
  destruct vs as [|u vs' _] using rev_ind.
  - simpl. repeat split; lia.
  - destruct (IH u) as (Hs & Ht & Hc & Hi); [by rewrite last_snoc|].
    rewrite Hs, Ht, Hc, Hi, list_insert_insert_eq.
    repeat split; lia.
Qed.

(** [n] pops from a marker at [n], inside the array, return the slots
    below the marker from the top down. *)
Lemma pops_slots n : forall vm,
  stackTop vm = Z.of_nat n -> (n <= length (stack vm))%nat ->
  pops n vm =
  (rev (map Some (take n (stack vm))),
   mkVM (chunk vm) (ip vm) (stack vm) 0).
Proof.
  induction n as [|n IH]; intros vm Htop Hlen.
  - simpl. destruct vm. simpl in *. by subst.
  - cbn [pops]. unfold pop. cbn [stack stackTop].
    rewrite IH; cbn [stack stackTop chunk ip]; [|lia..].
    unfold slot. rewrite decide_True by lia.
    replace (Z.to_nat (stackTop vm - 1)) with n by lia.
    destruct (lookup_lt_is_Some_2 (stack vm) n ltac:(lia)) as [x Hx].
    rewrite Hx, (take_S_r _ _ _ Hx), map_app, rev_app_distr. done.
Qed.

(** X2: on an empty stack, as many pops as there were pushes return the
    content of the slots below the marker, from the top down: the last
    value pushed comes back last, from slot 0, and the pops before it
    return what the other slots held before the pushes; the marker is back
    at the base. *)
Theorem pops_after_pushes vs v vm :
  stackTop vm = 0 ->
  last vs = Some v ->
  (length vs <= length (stack vm))%nat ->
  pops (length vs) (pushes vs vm) =
  (rev (map Some (take (length vs) (<[0%nat := v]> (stack vm)))),
   mkVM (chunk vm) (ip vm) (<[0%nat := v]> (stack vm)) 0).
Proof.
  intros Htop Hlast Hlen.
  destruct (pushes_overwrite_slot_zero vs v vm Hlast) as (Hs & Ht & Hc & Hi).
  rewrite pops_slots; rewrite ?Hs, ?Ht, ?Hc, ?Hi, ?length_insert; try done; lia.
Qed.

(** X3: a pop right after a push brings the top marker back where it
    was, and returns the value pushed only when the stack was empty;
    otherwise it returns what the slot at the marker held before, the
    pushed value staying in slot 0. *)
Theorem pop_after_push v vm :
  0 <= stackTop vm < capacity vm ->
  pop (push v vm) =
  (if decide (stackTop vm = 0) then Some v
   else slot (stack vm) (stackTop vm),
   mkVM (chunk vm) (ip vm) (<[0%nat := v]> (stack vm)) (stackTop vm)).
Proof.
  unfold capacity. intros Hb. unfold pop, push. cbn [stack stackTop chunk ip].
  replace (stackTop vm + 1 - 1) with (stackTop vm) by lia.
  f_equal. unfold slot.
  destruct (decide (stackTop vm = 0)) as [E|E]; rewrite !decide_True by lia.
  - rewrite E. simpl. apply list_lookup_insert_eq. lia.
  - apply list_lookup_insert_ne. lia.
Qed.

(** *** Containers that [run] cannot finish *)

Lemma run_fuel_no_return f : forall vm,
  Forall (fun b => b <> OP_RETURN) (code (chunk vm)) ->
  forall r vm' out, run_fuel f vm <> Finished r vm' out.
Proof.
  induction f as [|f IH]; intros vm Hno r vm' out; [done|]. simpl.
  unfold Vm.turn.
  destruct (READ_BYTE vm) as [[b vm1]|] eqn:E1; [|done].
  apply READ_BYTE_Some in E1 as [Hb ->].
  assert (b <> OP_RETURN) as Hne.
  { rewrite Forall_lookup in Hno. by apply (Hno _ _ Hb). }
  destruct (Byte.eqb b OP_CONSTANT).
  - destruct (READ_CONSTANT _) as [[c vm2]|] eqn:E2; [|done].
    apply READ_CONSTANT_Some in E2 as (b' & _ & _ & ->). cbn [chunk] in *.
    specialize (IH (mkVM (chunk vm) (S (S (ip vm))) (stack vm) (stackTop vm)) Hno).
    destruct (run_fuel f _) as [r2 vm2 out2| |]; simpl; [|done..].
    intros [= -> -> _]. by eapply IH.
  - rewrite eqb_opcode_false by done.
    specialize (IH (mkVM (chunk vm) (S (ip vm)) (stack vm) (stackTop vm)) Hno).
    destruct (run_fuel f _) as [r2 vm2 out2| |]; simpl; [|done..].
    intros [= -> -> _]. by eapply IH.
Qed.

(** X4: a container whose code holds no return byte cannot be run to an
    outcome: the dispatch loop goes on until it reads past the end of the
    code (or of the constant pool), which C leaves undefined. *)
Theorem interpret_without_return (c : Chunk) vm :
  Forall (fun b => b <> OP_RETURN) (code c) ->
  interpret c vm = Undefined.
Proof.
  intros Hno. unfold Vm.interpret.
  set (vm0 := mkVM c 0 (stack vm) (stackTop vm)).
  pose proof (run_total OP_CONSTANT OP_RETURN DEBUG_TRACE_EXECUTION vm0) as Htot.
  pose proof (run_fuel_no_return (S (length (code (chunk vm0)) - ip vm0)) vm0 Hno)
    as Hfin.
  unfold Vm.run in *. destruct (run_fuel _ vm0) as [r vm' out| |]; [|done..].
  by destruct (Hfin r vm' out).
Qed.

(** X5: a load-constant instruction whose operand byte is missing (the
    code ends after the opcode) or is not an index of the constant pool
    makes the run undefined; nothing checks the operand. *)
Theorem load_constant_out_of_pool vm :
  code (chunk vm) !! ip vm = Some OP_CONSTANT ->
  match code (chunk vm) !! S (ip vm) with
  | Some i => (length (constants (chunk vm)) <= Byte.to_nat i)%nat
  | None => True
  end ->
  run vm = Undefined.
Proof.
  intros Hop Hoperand. rewrite run_unfold. unfold Vm.turn, READ_CONSTANT, READ_BYTE.
  rewrite Hop, eqb_opcode_true. cbn [chunk ip].
  destruct (code (chunk vm) !! S (ip vm)) as [i|]; [|done].
  cbn [chunk]. by rewrite lookup_ge_None_2.
Qed.

(** *** What a finished run leaves *)

Lemma run_fuel_stops_after_return f : forall vm r vm' out,
  run_fuel f vm = Finished r vm' out ->
  exists k, ip vm' = S k /\ (ip vm <= k)%nat /\
    code (chunk vm) !! k = Some OP_RETURN.
Proof.
  induction f as [|f IH]; intros vm r vm' out; [done|]. simpl.
  destruct (turn vm) as [vm1 out1|r1 vm1 out1|] eqn:E; [| |done].
  - pose proof (turn_Continue _ _ _ _ _ _ E) as (Hc & _ & _ & Hip).
    destruct (run_fuel f vm1) as [r2 vm2 out2| |] eqn:E2; [|done..].
    simpl. intros [= <- <- <-].
    destruct (IH _ _ _ _ E2) as (k & Hk & Hle & Hret).
    exists k. rewrite <- Hc. repeat split; [done|lia|done].
  - unfold Vm.turn in E.
    destruct (READ_BYTE vm) as [[b vm2]|] eqn:E1; [|done].
    apply READ_BYTE_Some in E1 as [Hb ->].
    destruct (Byte.eqb b OP_CONSTANT).
    { destruct (READ_CONSTANT _) as [[c vm3]|]; done. }
    destruct (Byte.eqb b OP_RETURN) eqn:Eret; [|done].
    apply Byte.byte_dec_bl in Eret. subst b.
    injection E as <- <- <-. intros [= <- <- <-].
    exists (ip vm). by repeat split.
Qed.

(** X6: whatever the container, when [interpret] returns, the outcome is
    success, the container is the one given, the evaluation stack and its
    top marker are those of the call, and the instruction pointer is just
    past a return byte of the code. *)
Theorem interpret_finished (c : Chunk) vm r vm' out :
  interpret c vm = Finished r vm' out ->
  r = INTERPRET_OK /\ chunk vm' = c /\
  stack vm' = stack vm /\ stackTop vm' = stackTop vm /\
  exists k, ip vm' = S k /\ code c !! k = Some OP_RETURN.
Proof.
  unfold Vm.interpret, Vm.run. intros Hrun.
  pose proof (run_fuel_Finished _ _ _ _ _ _ _ _ Hrun) as (-> & Hc & Hs & Ht).
  destruct (run_fuel_stops_after_return _ _ _ _ _ Hrun) as (k & Hk & _ & Hret).
  repeat split; try done. by exists k.
Qed.

(** X7: [interpret] can be repeated: called again on the state that a
    finished call left, with the same container, it returns the same
    outcome, state and output. *)
Theorem interpret_again (c : Chunk) vm r vm' out :
  interpret c vm = Finished r vm' out ->
  interpret c vm' = Finished r vm' out.
Proof.
  intros Hrun. unfold Vm.interpret in *.
  pose proof (run_fuel_Finished _ _ _ _ _ _ _ _ Hrun) as (_ & _ & Hs & Ht).
  by rewrite Hs, Ht.
Qed.

End Machine.

Lemma pushes_overwrite_slot_zero_witness :
  stack (pushes [5; 6; 7] zeroed_vm) = <[0%nat := 7]> (stack zeroed_vm) /\
  stackTop (pushes [5; 6; 7] zeroed_vm) = stackTop zeroed_vm + Z.of_nat 3 /\
  chunk (pushes [5; 6; 7] zeroed_vm) = chunk zeroed_vm /\
  ip (pushes [5; 6; 7] zeroed_vm) = ip zeroed_vm.
Proof. exact (pushes_overwrite_slot_zero [5; 6; 7] 7 zeroed_vm eq_refl). Defined.

Lemma pops_after_pushes_witness :
  pops 3 (pushes [5; 6; 7] zeroed_vm) =
  ([Some 0; Some 0; Some 7], mkVM (mkChunk [] []) 0 [7; 0; 0; 0] 0).
Proof.
  exact (pops_after_pushes [5; 6; 7] 7 zeroed_vm eq_refl eq_refl
           (le_S _ _ (le_n 3))).
Defined.

Lemma pop_after_push_witness :
  pop (push 9 (mkVM (mkChunk [] []) 0 [1; 2; 3; 4] 2)) =
  (Some 3, mkVM (mkChunk [] []) 0 [9; 2; 3; 4] 2).
Proof.
  apply (pop_after_push 9 (mkVM (mkChunk [] []) 0 [1; 2; 3; 4] 2)).
  unfold capacity. simpl. lia.
Defined.

Lemma interpret_without_return_witness :
  interpret x00 x01 false (mkChunk [x00; x00; x07] [42]) zeroed_vm = Undefined.
Proof.
  apply (interpret_without_return x00 x01 false
           (mkChunk [x00; x00; x07] [42]) zeroed_vm).
  repeat constructor; discriminate.
Defined.

Lemma load_constant_out_of_pool_witness :
  run x00 x01 false (mkVM (mkChunk [x00; x01; x01] [42]) 0 [0; 0; 0; 0] 0) =
  Undefined.
Proof.
  apply (load_constant_out_of_pool x00 x01 false
           (mkVM (mkChunk [x00; x01; x01] [42]) 0 [0; 0; 0; 0] 0) eq_refl).
  simpl. apply le_n.
Defined.

Lemma interpret_finished_witness :
  INTERPRET_OK = INTERPRET_OK /\
  chunk (mkVM (mkChunk [x07; x01] [42]) 2 [0; 0; 0; 0] 0) =
    mkChunk [x07; x01] [42] /\
  stack (mkVM (mkChunk [x07; x01] [42]) 2 [0; 0; 0; 0] 0) = stack zeroed_vm /\
  stackTop (mkVM (mkChunk [x07; x01] [42]) 2 [0; 0; 0; 0] 0) =
    stackTop zeroed_vm /\
  exists k, ip (mkVM (mkChunk [x07; x01] [42]) 2 [0; 0; 0; 0] 0) = S k /\
    code (mkChunk [x07; x01] [42]) !! k = Some x01.
Proof.
  exact (interpret_finished x00 x01 false (mkChunk [x07; x01] [42]) zeroed_vm
           INTERPRET_OK (mkVM (mkChunk [x07; x01] [42]) 2 [0; 0; 0; 0] 0) []
           eq_refl).
Defined.

Lemma interpret_again_witness :
  interpret x00 x01 false (mkChunk [x00; x00; x01] [42])
    (mkVM (mkChunk [x00; x00; x01] [42]) 3 [0; 0; 0; 0] 0) =
  Finished INTERPRET_OK (mkVM (mkChunk [x00; x00; x01] [42]) 3 [0; 0; 0; 0] 0)
    [OutValue 42; OutString newline].
Proof.
  exact (interpret_again x00 x01 false (mkChunk [x00; x00; x01] [42]) zeroed_vm
           INTERPRET_OK (mkVM (mkChunk [x00; x00; x01] [42]) 3 [0; 0; 0; 0] 0)
           [OutValue 42; OutString newline] eq_refl).
Defined.

End VmMore.

(** ** Further properties of scanner.c *)

Module ScanMore.
Import Scan ScanFacts.

Lemma digit_first c :
  isDigit c = true ->
  isAlpha c = false /\ is_space c = false /\ c <> "/"%char /\ c <> NUL /\
  c <> LF.
Proof.
  destruct c as [[] [] [] [] [] [] [] []]; vm_compute; intros H;
    first [discriminate H | repeat split; discriminate].
Qed.

Lemma makeToken_span o n l type :
  makeToken type (mkScanner o (o + n) l) =
  Token.mk type (InSource o) (to_int (Z.of_nat n)) l.
Proof. unfold makeToken. simpl. do 2 f_equal. lia. Qed.

Section Source.

Variable source : list ascii.

Local Abbreviation L := (length source).
Local Abbreviation char_at := (char_at source).
Local Abbreviation peek := (peek source).
Local Abbreviation peekNext := (peekNext source).
Local Abbreviation isAtEnd := (isAtEnd source).
Local Abbreviation advance := (advance source).
Local Abbreviation slice := (slice source).
Local Abbreviation consumed := (consumed source).
Local Abbreviation scan_post := (scan_post source).
Local Abbreviation at_comment := (at_comment source).
Local Abbreviation skipWhitespace := (skipWhitespace source).
Local Abbreviation scanToken := (scanToken source).

Implicit Types (s : Scanner) (c : ascii) (i j k : nat).

(** *** Where [skipWhitespace] stops *)

(** X8: [skipWhitespace] always returns; where it stops, the next
    character is no space, tab, carriage return or newline and no line
    comment starts; it leaves [start] alone, moves the cursor forward
    only, and has incremented [line] once for each newline it passed, so
    that [line] has grown by the number of those newlines when that stays
    within the range of [int].  Skipping again from there changes
    nothing. *)
Theorem skipWhitespace_settles s :
  exists s', skipWhitespace s = Some s' /\
    is_space (peek s') = false /\ at_comment s' = false /\
    start s' = start s /\ (current s <= current s')%nat /\
    line s' = line_after (line s) (slice (current s) (current s')) /\
    (INT_MIN <= line s ->
     line s + nl_count (slice (current s) (current s')) <= INT_MAX ->
     line s' = line s + nl_count (slice (current s) (current s'))) /\
    skipWhitespace s' = Some s'.
Proof.
  destruct (skipWhitespace_spec source s) as (s' & Hskip & Hc & _).
  destruct (skipWhitespace_loop_stop _ _ _ _ Hskip) as [Hsp Hcm].
  destruct Hc as (Hst & Hle & _ & Hline & _).
  exists s'. repeat split; try done.
  - intros Hlo Hhi. rewrite Hline. by apply line_after_small.
  - by apply skipWhitespace_here.
Qed.

(** *** The end of input *)

(** X9: once [scanToken] has returned the end-of-input token, every
    further call returns that same token and leaves the scanner as it is;
    the token has length 0 and points at the cursor. *)
Theorem eof_repeats s tok s' :
  scanToken s = Some (tok, s') -> Token.type tok = TOKEN_EOF ->
  scanToken s' = Some (tok, s') /\
  Token.length tok = 0 /\ Token.start tok = InSource (current s').
Proof.
  intros Hscan Heof.
  destruct (scanToken_spec source s) as (tok' & s'' & Hscan' & Hpost).
  rewrite Hscan in Hscan'. injection Hscan' as <- <-.
  destruct Hpost as (_ & _ & _ & _ & Hend & _ & Hmk & _).
  destruct (Hend Heof) as [Hat Hst].
  rewrite Hmk by (by rewrite Heof). rewrite Heof.
  unfold makeToken. simpl. rewrite Hst, Z.sub_diag.
  split; [|split; reflexivity].
  apply isAtEnd_true in Hat.
  unfold Scan.scanToken. rewrite skipWhitespace_here.
  - unfold Scan.isAtEnd, Scan.peek in *. cbn [current]. rewrite Hat. simpl.
    unfold makeToken. simpl. rewrite Z.sub_diag.
    destruct s' as [st cu li]. simpl in *. by subst.
  - by rewrite Hat.
  - unfold Scan.at_comment. by rewrite Hat.
Qed.

(** *** Line comments *)

Lemma skipWhitespace_loop_stable f1 : forall f2 s,
  (L - current s < f1)%nat -> (L - current s < f2)%nat ->
  skipWhitespace_loop source f1 s = skipWhitespace_loop source f2 s.
Proof.
  induction f1 as [|f1 IH]; intros f2 s H1 H2; [lia|].
  destruct f2 as [|f2]; [lia|]. cbn [skipWhitespace_loop].
  destruct ((peek s =? " ") || (peek s =? CR) || (peek s =? TAB))%char eqn:Esp.
  { assert (peek s <> NUL) as Hnz by (intros E; by rewrite E in Esp).
    apply char_at_lt in Hnz. apply IH; simpl; lia. }
  destruct (Ascii.eqb_spec (peek s) LF) as [Enl|_].
  { assert (peek s <> NUL) as Hnz by (by rewrite Enl).
    apply char_at_lt in Hnz. apply IH; simpl; lia. }
  destruct (Ascii.eqb_spec (peek s) "/") as [Esl|_]; [|done].
  destruct (peekNext s =? "/")%char; [|done].
  destruct (comment_loop source s) as (s1 & -> & Hc & Hex).
  assert (peek s <> NUL) as Hnz by (by rewrite Esl).
  apply char_at_lt in Hnz.
  destruct Hc as (_ & Hle & Hmax & _).
  assert (current s <> current s1) as Hne.
  { intros E. unfold Scan.peek in *. by rewrite <- E, Esl in Hex. }
  apply IH; lia.
Qed.

(** X10: a line comment is skipped whole: when the cursor is at two
    slashes, followed by characters other than a newline up to a newline
    or the end of input, [skipWhitespace], and so [scanToken], does what it
    does from the end of the comment, on the same line. *)
Theorem comment_skipped pre body rest s :
  source = pre ++ ("/" :: "/" :: body)%char ++ rest ->
  current s = length pre ->
  Forall (fun c => c <> LF /\ c <> NUL) body ->
  hd NUL rest = LF \/ hd NUL rest = NUL ->
  skipWhitespace s =
    skipWhitespace (mkScanner (start s) (length pre + 2 + length body) (line s)) /\
  scanToken s =
    scanToken (mkScanner (start s) (length pre + 2 + length body) (line s)).
Proof.
  intros Hsrc Hcur Hbody Hrest.
  assert (skipWhitespace s =
    skipWhitespace (mkScanner (start s) (length pre + 2 + length body) (line s)))
    as Hskip; [|split; [done|unfold Scan.scanToken; by rewrite Hskip]].
  assert (peek s = "/"%char) as Hp0.
  { pose proof (char_at_middle source pre _ rest 0 Hsrc) as H.
    rewrite Nat.add_0_r, <- Hcur in H.
    specialize (H ltac:(simpl; lia)). by injection H. }
  assert (char_at (current s + 1) = "/"%char) as Hp1.
  { pose proof (char_at_middle source pre _ rest 1 Hsrc) as H.
    rewrite <- Hcur in H. specialize (H ltac:(simpl; lia)). by injection H. }
  assert (current s < L)%nat as Hlt.
  { apply char_at_lt. unfold Scan.peek in Hp0. by rewrite Hp0. }
  unfold Scan.skipWhitespace at 1. unfold fuel_for at 1.
  cbn [skipWhitespace_loop].
  replace ((peek s =? " ") || (peek s =? CR) || (peek s =? TAB))%char
    with false by (by rewrite Hp0).
  replace (peek s =? LF)%char with false by (by rewrite Hp0).
  replace (peek s =? "/")%char with true by (by rewrite Hp0).
  replace (peekNext s =? "/")%char with true
    by (unfold Scan.peekNext, Scan.isAtEnd; unfold Scan.peek in Hp0;
        by rewrite Hp0, Hp1).
  cbv iota.
  destruct (comment_loop source s) as (s1 & -> & Hc & Hex).
  assert (current s1 = (length pre + length ("/" :: "/" :: body)%char)%nat) as Hcur1.
  { apply (consumed_exact source not_eol pre _ rest s s1 Hsrc Hcur); try done.
    - repeat constructor. eapply Forall_impl; [exact Hbody|].
      intros c [Hc1 Hc2]. unfold not_eol.
      apply Ascii.eqb_neq in Hc1, Hc2. by rewrite Hc1, Hc2.
    - by destruct Hrest as [-> | ->]. }
  destruct (consumed_no_newline source not_eol _ _ eq_refl Hc) as [_ Hline].
  destruct Hc as (Hst & _). simpl in Hcur1.
  replace s1 with (mkScanner (start s) (length pre + 2 + length body) (line s)).
  - unfold Scan.skipWhitespace, fuel_for.
    apply skipWhitespace_loop_stable; cbn [current]; lia.
  - destruct s1 as [st cu li]. simpl in *. subst. f_equal. lia.
Qed.

(** *** Numbers *)

Lemma char_at_here pre c rest s :
  source = pre ++ c :: rest -> current s = length pre ->
  char_at (current s) = c /\ char_at (S (current s)) = hd NUL rest.
Proof.
  intros Hsrc Hcur. split.
  - pose proof (char_at_middle source pre [c] rest 0 Hsrc) as H.
    rewrite Nat.add_0_r, <- Hcur in H.
    specialize (H ltac:(simpl; lia)). by injection H.
  - pose proof (char_at_after source pre [c] rest Hsrc) as H.
    rewrite <- Hcur in H. simpl in H. by rewrite Nat.add_1_r in H.
Qed.

Lemma scanToken_at_digit s :
  isDigit (peek s) = true ->
  scanToken s = number source (mkScanner (current s) (S (current s)) (line s)).
Proof.
  intros Hd. destruct (digit_first _ Hd) as (Ha & Hsp & Hsl & Hnz & _).
  unfold Scan.scanToken. rewrite skipWhitespace_here; [|done|].
  - unfold Scan.isAtEnd, Scan.advance. cbn [current start line].
    unfold Scan.peek in *. apply Ascii.eqb_neq in Hnz.
    by rewrite Hnz, Ha, Hd.
  - unfold Scan.at_comment. apply Ascii.eqb_neq in Hsl. by rewrite Hsl.
Qed.

(** The integer part of a number, and the test for a fractional part. *)
Lemma number_scan pre d ds rest s :
  source = pre ++ (d :: ds) ++ rest ->
  current s = length pre ->
  isDigit d = true ->
  Forall (fun x => isDigit x = true) ds ->
  isDigit (hd NUL rest) = false ->
  scanToken s =
  if (hd NUL rest =? ".")%char && isDigit (hd NUL (tl rest)) then
    match while (fuel_for source
                   (mkScanner (length pre) (length pre + S (length ds) + 1) (line s)))
            (is_digit source) (fun s => (advance s).2)
            (mkScanner (length pre) (length pre + S (length ds) + 1) (line s))
    with
    | Some s3 => Some (makeToken TOKEN_NUMBER s3, s3)
    | None => None
    end
  else
    Some (Token.mk TOKEN_NUMBER (InSource (length pre))
            (to_int (Z.of_nat (S (length ds)))) (line s),
          mkScanner (length pre) (length pre + S (length ds)) (line s)).
Proof.
  intros Hsrc Hcur Hd Hds Hrest.
  assert (peek s = d) as Hpeek.
  { pose proof (char_at_middle source pre (d :: ds) rest 0 Hsrc) as H.
    rewrite Nat.add_0_r, <- Hcur in H.
    specialize (H ltac:(simpl; lia)). by injection H. }
  rewrite scanToken_at_digit by (by rewrite Hpeek). unfold number.
  destruct (digit_loop source (mkScanner (current s) (S (current s)) (line s)))
    as (s1 & -> & Hcons & Hex).
  assert (source = (pre ++ [d]) ++ ds ++ rest) as Hsrc'
    by (by rewrite <- app_assoc).
  assert (length (pre ++ [d]) = length pre + 1)%nat as Hlen
    by (rewrite length_app; simpl; lia).
  assert (current s1 = (length pre + 1 + length ds)%nat) as Hcur1.
  { rewrite <- Hlen.
    apply (consumed_exact source isDigit _ ds rest
             (mkScanner (current s) (S (current s)) (line s)) s1 Hsrc');
      try done.
    simpl. lia. }
  destruct (consumed_no_newline source isDigit _ _ eq_refl Hcons) as [_ Hline1].
  destruct Hcons as (Hstart1 & _). simpl in Hstart1, Hline1.
  assert (s1 = mkScanner (length pre) (length pre + S (length ds)) (line s)) as ->.
  { destruct s1 as [st cu li]. simpl in *. subst. f_equal; lia. }
  pose proof (char_at_after source pre (d :: ds) rest Hsrc) as Hnext.
  simpl in Hnext.
  unfold Scan.peekNext, Scan.isAtEnd, Scan.peek. cbn [current].
  rewrite Hnext, (makeToken_span _ (S (length ds))).
  destruct rest as [|x rest']; [done|]. cbn [hd tl].
  destruct (Ascii.eqb_spec x ".") as [->|_]; [|done]. cbn [andb].
  replace ("." =? NUL)%char with false by done.
  replace (char_at (length pre + S (length ds) + 1)) with (hd NUL rest').
  2:{ rewrite <- (char_at_after source pre ((d :: ds) ++ ["."%char]) rest')
        by (by rewrite Hsrc, <- !app_assoc).
      f_equal. rewrite length_app. simpl. lia. }
  destruct (isDigit (hd NUL rest')); [|done].
  cbn [Scan.advance snd current start line].
  by replace (S (length pre + S (length ds))) with (length pre + S (length ds) + 1)%nat by lia.
Qed.

(** X11: a maximal run of digits, of a length that fits an [int], that
    is not followed by a dot and a digit is scanned as one number token
    that spans exactly the digits; a dot after them that no digit follows
    is left for the next call. *)
Theorem number_integer pre d ds rest s :
  source = pre ++ (d :: ds) ++ rest ->
  current s = length pre ->
  isDigit d = true ->
  Forall (fun x => isDigit x = true) ds ->
  isDigit (hd NUL rest) = false ->
  (hd NUL rest =? ".")%char && isDigit (hd NUL (tl rest)) = false ->
  Z.of_nat (length (d :: ds)) <= INT_MAX ->
  scanToken s =
  Some (Token.mk TOKEN_NUMBER (InSource (length pre))
          (Z.of_nat (length (d :: ds))) (line s),
        mkScanner (length pre) (length pre + length (d :: ds)) (line s)).
Proof.
  intros Hsrc Hcur Hd Hds Hrest Hfrac Hsize.
  rewrite (number_scan pre d ds rest s), Hfrac by done.
  by rewrite to_int_small by (unfold INT_MIN; simpl in Hsize; lia).
Qed.

(** X12: digits, a dot, and a maximal run of at least one digit, of
    a length together that fits an [int], are scanned as one number token
    that spans the integer part, the dot and the fractional part. *)
Theorem number_fraction pre d ds f fs rest s :
  source = pre ++ (d :: ds) ++ ("."%char :: f :: fs) ++ rest ->
  current s = length pre ->
  isDigit d = true -> Forall (fun x => isDigit x = true) ds ->
  isDigit f = true -> Forall (fun x => isDigit x = true) fs ->
  isDigit (hd NUL rest) = false ->
  Z.of_nat (length (d :: ds) + 1 + length (f :: fs)) <= INT_MAX ->
  scanToken s =
  Some (Token.mk TOKEN_NUMBER (InSource (length pre))
          (Z.of_nat (length (d :: ds) + 1 + length (f :: fs))) (line s),
        mkScanner (length pre)
          (length pre + (length (d :: ds) + 1 + length (f :: fs))) (line s)).
Proof.
  intros Hsrc Hcur Hd Hds Hf Hfs Hrest Hsize.
  rewrite (number_scan pre d ds (("."%char :: f :: fs) ++ rest) s); try done.
  cbn [app hd tl]. rewrite Hf. cbn [andb Ascii.eqb Bool.eqb].
  set (s2 := mkScanner (length pre) (length pre + S (length ds) + 1) (line s)).
  destruct (digit_loop source s2) as (s3 & -> & Hcons & Hex).
  assert (source = (pre ++ (d :: ds) ++ ["."%char]) ++ (f :: fs) ++ rest) as Hsrc'
    by (by rewrite Hsrc, <- !app_assoc).
  assert (length (pre ++ (d :: ds) ++ ["."%char]) = length pre + S (length ds) + 1)%nat
    as Hlen by (rewrite !length_app; simpl; lia).
  assert (current s3 = (length pre + S (length ds) + 1 + length (f :: fs))%nat)
    as Hcur3.
  { rewrite <- Hlen.
    apply (consumed_exact source isDigit _ (f :: fs) rest s2 s3 Hsrc');
      try done. by constructor. }
  destruct (consumed_no_newline source isDigit _ _ eq_refl Hcons) as [_ Hline3].
  destruct Hcons as (Hstart3 & _). simpl in Hstart3, Hline3.
  assert (s3 = mkScanner (length pre)
                 (length pre + (length (d :: ds) + 1 + length (f :: fs))) (line s))
    as ->.
  { destruct s3 as [st cu li]. simpl in *. subst. f_equal; lia. }
  by rewrite makeToken_span, to_int_small by (unfold INT_MIN; lia).
Qed.

(** *** One-character tokens and operators *)

Local Ltac first_character Hpeek :=
  unfold Scan.scanToken;
  rewrite skipWhitespace_here
    by (unfold Scan.at_comment; rewrite ?Hpeek; done);
  unfold Scan.isAtEnd, Scan.advance; cbn [current start line];
  unfold Scan.peek in Hpeek; rewrite Hpeek.

Lemma punctuation_scan s c kind :
  peek s = c -> punctuation_kind c = Some kind -> at_comment s = false ->
  scanToken s =
  Some (makeToken kind (mkScanner (current s) (S (current s)) (line s)),
        mkScanner (current s) (S (current s)) (line s)).
Proof.
  intros Hpeek Hkind Hcm. unfold punctuation_kind in Hkind.
  repeat match type of Hkind with
  | (if (c =? ?y)%char then _ else _) = _ =>
      destruct (Ascii.eqb_spec c y) as [->|_];
      [injection Hkind as <-;
       unfold Scan.scanToken; rewrite skipWhitespace_here by (by rewrite ?Hpeek);
       unfold Scan.isAtEnd, Scan.advance; cbn [current start line];
       unfold Scan.peek in Hpeek; rewrite Hpeek; reflexivity|]
  end.
  done.
Qed.

(** X13: each of the characters [( ) { } ; , . - + / *] is scanned as a
    token of one character of its own kind, whatever follows it, except
    that a slash followed by a slash starts a comment. *)
Theorem punctuation_token pre c rest s kind :
  source = pre ++ c :: rest ->
  current s = length pre ->
  punctuation_kind c = Some kind ->
  (c = "/"%char -> hd NUL rest <> "/"%char) ->
  scanToken s =
  Some (Token.mk kind (InSource (length pre)) 1 (line s),
        mkScanner (length pre) (length pre + 1) (line s)).
Proof.
  intros Hsrc Hcur Hkind Hslash.
  destruct (char_at_here pre c rest s Hsrc Hcur) as [Hc Hn].
  rewrite (punctuation_scan s c kind); try done.
  - rewrite Hcur. replace (S (length pre)) with (length pre + 1)%nat by lia.
    by rewrite makeToken_span.
  - unfold Scan.at_comment, Scan.peekNext, Scan.isAtEnd, Scan.peek.
    rewrite Hc. destruct (Ascii.eqb_spec c "/") as [E|_]; [|done].
    rewrite Nat.add_1_r, Hn. specialize (Hslash E).
    apply Ascii.eqb_neq in Hslash. rewrite E.
    replace ("/" =? NUL)%char with false by done. cbv iota. cbn [andb].
    exact Hslash.
Qed.

(** X14: maximal munch on [! = < >]: followed by [=], the character and
    the [=] are scanned as one token of the two-character kind; followed
    by anything else, or by the end of input, the character alone is a
    token of the one-character kind. *)
Theorem operator_munch pre c rest s two one :
  source = pre ++ c :: rest ->
  current s = length pre ->
  operator_kinds c = Some (two, one) ->
  scanToken s =
  Some (if (hd NUL rest =? "=")%char
        then (Token.mk two (InSource (length pre)) 2 (line s),
              mkScanner (length pre) (length pre + 2) (line s))
        else (Token.mk one (InSource (length pre)) 1 (line s),
              mkScanner (length pre) (length pre + 1) (line s))).
Proof.
  intros Hsrc Hcur Hkind.
  destruct (char_at_here pre c rest s Hsrc Hcur) as [Hc Hn].
  assert (scanToken s =
          one_or_two source "=" two one
            (mkScanner (current s) (S (current s)) (line s))) as ->.
  { unfold operator_kinds in Hkind.
    repeat match type of Hkind with
    | (if (c =? ?y)%char then _ else _) = _ =>
        destruct (Ascii.eqb_spec c y) as [->|_];
        [injection Hkind as <- <-;
         unfold Scan.scanToken;
         rewrite skipWhitespace_here
           by (unfold Scan.at_comment, Scan.peek; by rewrite ?Hc);
         unfold Scan.isAtEnd, Scan.advance; cbn [current start line];
         rewrite Hc; reflexivity|]
    end.
    done. }
  unfold one_or_two, match_, Scan.isAtEnd. cbn [current start line].
  rewrite Hn, Hcur.
  destruct (Ascii.eqb_spec (hd NUL rest) "=") as [->|Hne]; cbn.
  - replace (S (S (length pre))) with (length pre + 2)%nat by lia.
    by rewrite makeToken_span.
  - replace (S (length pre)) with (length pre + 1)%nat by lia.
    destruct (hd NUL rest =? NUL)%char; by rewrite makeToken_span.
Qed.

(** X15: a number, of a length that fits an [int], followed by a dot
    that no digit follows: the first call returns the number, the next
    call returns the dot as a one-character token right after it. *)
Theorem number_then_dot pre d ds rest s :
  source = pre ++ (d :: ds) ++ "."%char :: rest ->
  current s = length pre ->
  isDigit d = true ->
  Forall (fun x => isDigit x = true) ds ->
  isDigit (hd NUL rest) = false ->
  Z.of_nat (length (d :: ds)) <= INT_MAX ->
  exists s1,
    scanToken s =
      Some (Token.mk TOKEN_NUMBER (InSource (length pre))
              (Z.of_nat (length (d :: ds))) (line s), s1) /\
    scanToken s1 =
      Some (Token.mk TOKEN_DOT (InSource (length pre + length (d :: ds))) 1
              (line s),
            mkScanner (length pre + length (d :: ds))
              (length pre + length (d :: ds) + 1) (line s)).
Proof.
  intros Hsrc Hcur Hd Hds Hrest Hsize.
  exists (mkScanner (length pre) (length pre + length (d :: ds)) (line s)).
  split.
  - rewrite (number_scan pre d ds ("."%char :: rest) s); try done.
    cbn [hd tl]. rewrite Hrest. cbn [andb].
    by rewrite to_int_small by (unfold INT_MIN; simpl in Hsize; lia).
  - assert (source = (pre ++ d :: ds) ++ "."%char :: rest) as Hsrc'
      by (by rewrite Hsrc, <- app_assoc).
    set (s1 := mkScanner (length pre) (length pre + length (d :: ds)) (line s)).
    assert (current s1 = length (pre ++ d :: ds)) as Hcur1
      by (by rewrite length_app).
    destruct (char_at_here _ _ _ s1 Hsrc' Hcur1) as [Hc Hn].
    rewrite (punctuation_scan s1 "." TOKEN_DOT); try done.
    + unfold s1. cbn [current line].
      replace (S (length pre + length (d :: ds)))
        with (length pre + length (d :: ds) + 1)%nat by lia.
      by rewrite makeToken_span.
    + unfold Scan.at_comment, Scan.peek. by rewrite Hc.
Qed.

(** *** Characters that start no token *)

(** X16: a character that is not the sentinel, not skipped as
    whitespace, and not one that [scanToken] has a branch for, is
    consumed alone and reported by an error token with the
    unexpected-character message, on the current line; the scanner goes
    on after it at the next call. *)
Theorem unexpected_character pre c rest s :
  source = pre ++ c :: rest ->
  current s = length pre ->
  c <> NUL -> is_space c = false -> starts_token c = false ->
  scanToken s =
  Some (Token.mk TOKEN_ERROR
          (Literal (list_ascii_of_string "Unexpected character.")) 21 (line s),
        mkScanner (length pre) (length pre + 1) (line s)).
Proof.
  intros Hsrc Hcur Hnz Hsp Hst.
  destruct (char_at_here pre c rest s Hsrc Hcur) as [Hc _].
  assert (c <> "/"%char) as Hsl by (intros ->; done).
  unfold Scan.scanToken. rewrite skipWhitespace_here.
  - unfold Scan.isAtEnd, Scan.advance. cbn [current start line].
    rewrite Hc, Hcur. replace (S (length pre)) with (length pre + 1)%nat by lia.
    clear Hsrc Hc Hsl.
    destruct c as [[] [] [] [] [] [] [] []];
      first [done | discriminate Hsp | discriminate Hst | reflexivity].
  - unfold Scan.peek. by rewrite Hc.
  - unfold Scan.at_comment, Scan.peek. rewrite Hc.
    apply Ascii.eqb_neq in Hsl. by rewrite Hsl.
Qed.

(** *** Tokens in the order of the buffer *)

(** X17: in a buffer whose length fits an [int], the tokens of two
    successive calls that are not error tokens lie in the buffer in the
    order of the calls and do not overlap: each span starts at or after
    the cursor of its call, ends at the cursor the call leaves, and so the
    second starts at or after the end of the first. *)
Theorem tokens_in_order s tok1 s1 tok2 s2 :
  Z.of_nat L <= INT_MAX ->
  scanToken s = Some (tok1, s1) -> scanToken s1 = Some (tok2, s2) ->
  Token.type tok1 <> TOKEN_ERROR -> Token.type tok2 <> TOKEN_ERROR ->
  exists a1 a2,
    Token.start tok1 = InSource a1 /\ Token.start tok2 = InSource a2 /\
    (current s <= a1)%nat /\
    Z.of_nat a1 + Token.length tok1 = Z.of_nat (current s1) /\
    (current s1 <= a2)%nat /\
    Z.of_nat a2 + Token.length tok2 = Z.of_nat (current s2) /\
    0 <= Token.length tok1 /\ 0 <= Token.length tok2.
Proof.
  intros HL Hs1 Hs2 He1 He2.
  destruct (scanToken_spec source s) as (t & s' & Hscan & Hpost).
  rewrite Hs1 in Hscan. injection Hscan as <- <-.
  pose proof (span_le_length source _ _ _ Hpost) as Hspan1.
  destruct Hpost as (Hle1 & _ & _ & _ & _ & _ & Hmk1 & _).
  destruct (scanToken_spec source s1) as (t & s' & Hscan & Hpost).
  rewrite Hs2 in Hscan. injection Hscan as <- <-.
  pose proof (span_le_length source _ _ _ Hpost) as Hspan2.
  destruct Hpost as (Hle2 & _ & _ & _ & _ & _ & Hmk2 & _).
  exists (start s1), (start s2).
  rewrite (Hmk1 He1), (Hmk2 He2). unfold makeToken. simpl.
  rewrite !to_int_small by (unfold INT_MIN; lia).
  repeat split; lia.
Qed.

(** *** The cursor and the line only go forward *)


(** *** The first character decides the branch *)

Lemma identifier_result s0 tok s' :
  identifier source s0 = Some (tok, s') ->
  start s' = start s0 /\ tok = makeToken (identifierType source s') s'.
Proof.
  unfold identifier.
  destruct (alnum_loop source s0) as (s1 & -> & (Hst & _) & _).
  by intros [= <- <-].
Qed.

Lemma number_result s0 tok s' :
  number source s0 = Some (tok, s') ->
  start s' = start s0 /\ tok = makeToken TOKEN_NUMBER s'.
Proof.
  unfold number.
  destruct (digit_loop source s0) as (s1 & -> & (Hst & _) & _).
  destruct (_ && _).
  - destruct (digit_loop source (advance s1).2) as (s3 & -> & (Hst3 & _) & _).
    intros [= <- <-]. simpl in Hst3. split; [congruence|done].
  - by intros [= <- <-].
Qed.

Lemma string_result s0 tok s' :
  string source s0 = Some (tok, s') ->
  start s' = start s0 /\
  (tok = makeToken TOKEN_STRING s' \/
   tok = errorToken (list_ascii_of_string "Unterminated string.") s' /\
   isAtEnd s' = true).
Proof.
  unfold string.
  destruct (string_loop source s0) as (s1 & -> & (Hst & _) & _).
  destruct (isAtEnd s1) eqn:Eend; intros [= <- <-]; split; auto.
Qed.

Lemma one_or_two_result s0 two one tok s' :
  one_or_two source "=" two one s0 = Some (tok, s') ->
  start s' = start s0 /\
  (tok = makeToken two s' /\ current s' = S (current s0) /\
   char_at (current s0) = "="%char \/
   tok = makeToken one s' /\ current s' = current s0 /\
   char_at (current s0) <> "="%char).
Proof.
  unfold one_or_two, match_, Scan.isAtEnd.
  destruct (Ascii.eqb_spec (char_at (current s0)) NUL) as [E|_].
  { intros [= <- <-]. split; [done|]. right. by rewrite E. }
  destruct (Ascii.eqb_spec (char_at (current s0)) "=") as [E|E]; cbn [negb];
    intros [= <- <-]; split; auto.
Qed.

Lemma lexeme_split s :
  (start s <= current s <= L)%nat ->
  source = take (start s) source ++ slice (start s) (current s)
           ++ drop (current s) source /\
  length (take (start s) source) = start s /\
  length (slice (start s) (current s)) = (current s - start s)%nat.
Proof.
  intros H. unfold Scan.slice.
  rewrite length_take_le by lia.
  rewrite length_take_le by (rewrite length_drop; lia).
  repeat split.
  replace (drop (current s) source)
    with (drop (current s - start s) (drop (start s) source))
    by (rewrite drop_drop; f_equal; lia).
  by rewrite (take_drop (current s - start s)), take_drop.
Qed.

(** X19: the first character of a lexeme decides what [scanToken] makes
    of it.  For a token other than the end-of-input token, that character
    is neither the sentinel nor whitespace, and: a letter or underscore
    gives the keyword or identifier kind of the whole lexeme; a digit
    gives a number; a punctuation character gives its one-character token;
    one of [! = < >] gives the two-character operator exactly when [=]
    follows, the one-character operator otherwise; a double quote gives a
    string token, or the unterminated-string error at the end of input;
    any other character gives the unexpected-character error for that one
    character.  Error tokens carry no other message. *)
Theorem token_kind_by_first_character s tok s' :
  scanToken s = Some (tok, s') -> Token.type tok <> TOKEN_EOF ->
  char_at (start s') <> NUL /\ is_space (char_at (start s')) = false /\
  (isAlpha (char_at (start s')) = true ->
     tok = makeToken (keywordKind (slice (start s') (current s'))) s') /\
  (isDigit (char_at (start s')) = true -> tok = makeToken TOKEN_NUMBER s') /\
  (forall kind, punctuation_kind (char_at (start s')) = Some kind ->
     tok = makeToken kind s' /\ current s' = S (start s')) /\
  (forall two one, operator_kinds (char_at (start s')) = Some (two, one) ->
     tok = makeToken two s' /\ current s' = S (S (start s')) /\
     char_at (S (start s')) = "="%char \/
     tok = makeToken one s' /\ current s' = S (start s') /\
     char_at (S (start s')) <> "="%char) /\
  (char_at (start s') = DQUOTE ->
     tok = makeToken TOKEN_STRING s' \/
     tok = errorToken (list_ascii_of_string "Unterminated string.") s' /\
     isAtEnd s' = true) /\
  (starts_token (char_at (start s')) = false ->
     tok = errorToken (list_ascii_of_string "Unexpected character.") s' /\
     current s' = S (start s')).
Proof.
  intros Hscan Hne.
  destruct (scanToken_spec source s) as (t & s'' & Hscan' & Hpost).
  rewrite Hscan in Hscan'. injection Hscan' as <- <-.
  destruct Hpost as (_ & _ & _ & _ & _ & Hspan & _). specialize (Hspan Hne).
  unfold Scan.scanToken in Hscan.
  destruct (Scan.skipWhitespace source s) as [s0|] eqn:Hskip; [|done].
  destruct (skipWhitespace_loop_stop _ _ _ _ Hskip) as [Hsp _].
  destruct (isAtEnd (mkScanner (current s0) (current s0) (line s0))) eqn:Eend.
  { injection Hscan as <- <-. by destruct Hne. }
  unfold Scan.isAtEnd in Eend. cbn [Scan.advance current start line] in Hscan, Eend.
  unfold Scan.peek in Hsp.
  pattern (char_at (start s')).
  match goal with
  | |- ?P _ =>
      cut (start s' = current s0 /\ P (char_at (current s0)));
      [intros [E HP]; cbv beta in HP; rewrite <- E in HP; exact HP|cbv beta]
  end.
  set (s2 := mkScanner (current s0) (S (current s0)) (line s0)) in *.
  assert (identifier source s2 = Some (tok, s') ->
          start s' = current s0 /\
          tok = makeToken (keywordKind (slice (start s') (current s'))) s') as HI.
  { intros H. apply identifier_result in H as [Hst ->]. split; [done|].
    destruct (lexeme_split s') as (Hsrc & Hl1 & Hl2); [lia|].
    f_equal. apply (identifierType_keywordKind source _ _ _ s' Hsrc);
      [by rewrite Hl1|rewrite Hl1, Hl2; lia|].
    intros E. rewrite E in Hl2. simpl in Hl2. lia. }
  assert (number source s2 = Some (tok, s') ->
          start s' = current s0 /\ tok = makeToken TOKEN_NUMBER s') as HN
    by apply number_result.
  assert (string source s2 = Some (tok, s') ->
          start s' = current s0 /\
          (tok = makeToken TOKEN_STRING s' \/
           tok = errorToken (list_ascii_of_string "Unterminated string.") s' /\
           isAtEnd s' = true)) as HS
    by apply string_result.
  assert (forall two one,
          one_or_two source "=" two one s2 = Some (tok, s') ->
          start s' = current s0 /\
          (tok = makeToken two s' /\ current s' = S (S (start s')) /\
           char_at (S (start s')) = "="%char \/
           tok = makeToken one s' /\ current s' = S (start s') /\
           char_at (S (start s')) <> "="%char)) as HO.
  { intros two one H. apply one_or_two_result in H as [Hst H].
    simpl in Hst, H. split; [done|]. by rewrite Hst. }
  remember (identifier source s2) as RI eqn:EI.
  remember (number source s2) as RN eqn:EN.
  remember (string source s2) as RS eqn:ES.
  remember (one_or_two source "=" TOKEN_BANG_EQUAL TOKEN_BANG s2) as R1 eqn:E1.
  remember (one_or_two source "=" TOKEN_EQUAL_EQUAL TOKEN_EQUAL s2) as R2 eqn:E2.
  remember (one_or_two source "=" TOKEN_LESS_EQUAL TOKEN_LESS s2) as R3 eqn:E3.
  remember (one_or_two source "=" TOKEN_GREATER_EQUAL TOKEN_GREATER s2) as R4 eqn:E4.
  pose proof (HO TOKEN_BANG_EQUAL TOKEN_BANG) as HO1.
  pose proof (HO TOKEN_EQUAL_EQUAL TOKEN_EQUAL) as HO2.
  pose proof (HO TOKEN_LESS_EQUAL TOKEN_LESS) as HO3.
  pose proof (HO TOKEN_GREATER_EQUAL TOKEN_GREATER) as HO4.
  rewrite <- E1 in HO1. rewrite <- E2 in HO2.
  rewrite <- E3 in HO3. rewrite <- E4 in HO4.
  clear HO EI EN ES E1 E2 E3 E4 Hskip Hspan.
  remember (char_at (current s0)) as c eqn:Ec. clear Ec.
  destruct c as [[] [] [] [] [] [] [] []];
    try discriminate Eend; try discriminate Hsp;
    cbn in Hscan;
    first [ apply HI in Hscan as [Hst Htok]
          | apply HN in Hscan as [Hst Htok]
          | apply HS in Hscan as [Hst Htok]
          | apply HO1 in Hscan as [Hst Htok]
          | apply HO2 in Hscan as [Hst Htok]
          | apply HO3 in Hscan as [Hst Htok]
          | apply HO4 in Hscan as [Hst Htok]
          | injection Hscan as <- <- ];
    (split; [done|]);
    (split; [discriminate|]);
    (split; [reflexivity|]);
    (split; [intros Hp; first [discriminate Hp | exact Htok]|]);
    (split; [intros Hp; first [discriminate Hp | exact Htok]|]);
    (split; [intros kind Hp; vm_compute in Hp;
             first [discriminate Hp | by injection Hp as <-]|]);
    (split; [intros two one Hp; vm_compute in Hp;
             first [discriminate Hp | injection Hp as <- <-; exact Htok]|]);
    (split; [intros Hp; first [discriminate Hp | exact Htok]|]);
    (intros Hp; first [discriminate Hp | done]).
Qed.

End Source.

Lemma token_kind_by_first_character_witness :
  char_at (list_ascii_of_string "a <= b") 2 <> NUL /\
  is_space (char_at (list_ascii_of_string "a <= b") 2) = false /\
  (isAlpha (char_at (list_ascii_of_string "a <= b") 2) = true ->
     Token.mk TOKEN_LESS_EQUAL (InSource 2) 2 1 =
     makeToken (keywordKind (slice (list_ascii_of_string "a <= b") 2 4))
       (mkScanner 2 4 1)) /\
  (isDigit (char_at (list_ascii_of_string "a <= b") 2) = true ->
     Token.mk TOKEN_LESS_EQUAL (InSource 2) 2 1 =
     makeToken TOKEN_NUMBER (mkScanner 2 4 1)) /\
  (forall kind,
     punctuation_kind (char_at (list_ascii_of_string "a <= b") 2) = Some kind ->
     Token.mk TOKEN_LESS_EQUAL (InSource 2) 2 1 = makeToken kind (mkScanner 2 4 1) /\
     4%nat = 3%nat) /\
  (forall two one,
     operator_kinds (char_at (list_ascii_of_string "a <= b") 2) = Some (two, one) ->
     Token.mk TOKEN_LESS_EQUAL (InSource 2) 2 1 = makeToken two (mkScanner 2 4 1) /\
     4%nat = 4%nat /\ char_at (list_ascii_of_string "a <= b") 3 = "="%char \/
     Token.mk TOKEN_LESS_EQUAL (InSource 2) 2 1 = makeToken one (mkScanner 2 4 1) /\
     4%nat = 3%nat /\ char_at (list_ascii_of_string "a <= b") 3 <> "="%char) /\
  (char_at (list_ascii_of_string "a <= b") 2 = DQUOTE ->
     Token.mk TOKEN_LESS_EQUAL (InSource 2) 2 1 =
       makeToken TOKEN_STRING (mkScanner 2 4 1) \/
     Token.mk TOKEN_LESS_EQUAL (InSource 2) 2 1 =
       errorToken (list_ascii_of_string "Unterminated string.") (mkScanner 2 4 1) /\
     isAtEnd (list_ascii_of_string "a <= b") (mkScanner 2 4 1) = true) /\
  (starts_token (char_at (list_ascii_of_string "a <= b") 2) = false ->
     Token.mk TOKEN_LESS_EQUAL (InSource 2) 2 1 =
       errorToken (list_ascii_of_string "Unexpected character.") (mkScanner 2 4 1) /\
     4%nat = 3%nat).
Proof.
  exact (token_kind_by_first_character (list_ascii_of_string "a <= b")
           (mkScanner 0 1 1) (Token.mk TOKEN_LESS_EQUAL (InSource 2) 2 1)
           (mkScanner 2 4 1) eq_refl ltac:(discriminate)).
Defined.

Lemma unexpected_character_witness :
  Scan.scanToken (list_ascii_of_string "a@b") (mkScanner 0 1 1) =
  Some (Token.mk TOKEN_ERROR
          (Literal (list_ascii_of_string "Unexpected character.")) 21 1,
        mkScanner 1 2 1).
Proof.
  apply (unexpected_character (list_ascii_of_string "a@b") ["a"%char]
           "@"%char ["b"%char] (mkScanner 0 1 1) eq_refl eq_refl);
    [discriminate | reflexivity | reflexivity].
Defined.

Lemma tokens_in_order_witness :
  exists a1 a2,
    InSource 0 = InSource a1 /\ InSource 4 = InSource a2 /\
    (0 <= a1)%nat /\ Z.of_nat a1 + 3 = Z.of_nat 3 /\
    (3 <= a2)%nat /\ Z.of_nat a2 + 1 = Z.of_nat 5 /\ 0 <= 3 /\ 0 <= 1.
Proof.
  exact (tokens_in_order (list_ascii_of_string "var x;") initScanner
           (Token.mk TOKEN_VAR (InSource 0) 3 1) (mkScanner 0 3 1)
           (Token.mk TOKEN_IDENTIFIER (InSource 4) 1 1) (mkScanner 4 5 1)
           ltac:(discriminate)
           eq_refl eq_refl ltac:(discriminate) ltac:(discriminate)).
Defined.


Lemma number_integer_witness :
  Scan.scanToken (list_ascii_of_string "x 12.") (mkScanner 0 2 1) =
  Some (Token.mk TOKEN_NUMBER (InSource 2) 2 1, mkScanner 2 4 1).
Proof.
  apply (number_integer (list_ascii_of_string "x 12.") (list_ascii_of_string "x ")
           "1"%char ["2"%char] ["."%char] (mkScanner 0 2 1)
           eq_refl eq_refl eq_refl); try reflexivity; try discriminate.
  repeat constructor.
Defined.

Lemma number_fraction_witness :
  Scan.scanToken (list_ascii_of_string "12.5;") initScanner =
  Some (Token.mk TOKEN_NUMBER (InSource 0) 4 1, mkScanner 0 4 1).
Proof.
  apply (number_fraction (list_ascii_of_string "12.5;") []
           "1"%char ["2"%char] "5"%char [] [";"%char] initScanner
           eq_refl eq_refl eq_refl); try reflexivity; try discriminate;
    repeat constructor.
Defined.

Lemma punctuation_token_witness :
  Scan.scanToken (list_ascii_of_string "a/b") (mkScanner 0 1 1) =
  Some (Token.mk TOKEN_SLASH (InSource 1) 1 1, mkScanner 1 2 1).
Proof.
  apply (punctuation_token (list_ascii_of_string "a/b") ["a"%char]
           "/"%char ["b"%char] (mkScanner 0 1 1) TOKEN_SLASH
           eq_refl eq_refl eq_refl).
  intros _. discriminate.
Defined.

Lemma operator_munch_witness :
  Scan.scanToken (list_ascii_of_string "!=!") initScanner =
  Some (Token.mk TOKEN_BANG_EQUAL (InSource 0) 2 1, mkScanner 0 2 1).
Proof.
  exact (operator_munch (list_ascii_of_string "!=!") [] "!"%char
           (list_ascii_of_string "=!") initScanner TOKEN_BANG_EQUAL TOKEN_BANG
           eq_refl eq_refl eq_refl).
Defined.

Lemma number_then_dot_witness :
  exists s1,
    Scan.scanToken (list_ascii_of_string "12.") initScanner =
      Some (Token.mk TOKEN_NUMBER (InSource 0) 2 1, s1) /\
    Scan.scanToken (list_ascii_of_string "12.") s1 =
      Some (Token.mk TOKEN_DOT (InSource 2) 1 1, mkScanner 2 3 1).
Proof.
  apply (number_then_dot (list_ascii_of_string "12.") [] "1"%char ["2"%char]
           [] initScanner eq_refl eq_refl eq_refl); try reflexivity;
    try discriminate.
  repeat constructor.
Defined.

Lemma comment_skipped_witness :
  Scan.skipWhitespace (list_ascii_of_string "a // b") (mkScanner 0 2 1) =
    Scan.skipWhitespace (list_ascii_of_string "a // b") (mkScanner 0 6 1) /\
  Scan.scanToken (list_ascii_of_string "a // b") (mkScanner 0 2 1) =
    Scan.scanToken (list_ascii_of_string "a // b") (mkScanner 0 6 1).
Proof.
  apply (comment_skipped (list_ascii_of_string "a // b")
           (list_ascii_of_string "a ") (list_ascii_of_string " b") []
           (mkScanner 0 2 1) eq_refl eq_refl).
  - repeat constructor; discriminate.
  - right. reflexivity.
Defined.

Lemma eof_repeats_witness :
  Scan.scanToken (list_ascii_of_string "x ") (mkScanner 2 2 1) =
    Some (Token.mk TOKEN_EOF (InSource 2) 0 1, mkScanner 2 2 1) /\
  Token.length (Token.mk TOKEN_EOF (InSource 2) 0 1) = 0 /\
  Token.start (Token.mk TOKEN_EOF (InSource 2) 0 1) =
    InSource (current (mkScanner 2 2 1)).
Proof.
  exact (eof_repeats (list_ascii_of_string "x ") (mkScanner 0 1 1)
           (Token.mk TOKEN_EOF (InSource 2) 0 1) (mkScanner 2 2 1)
           eq_refl eq_refl).
Defined.

End ScanMore.
